(** * The lark lexer (lark/lexer.py), embedded and verified

    The development follows the layout of the Python module:

    - Python strings are [string]; the few [str] methods the lexer calls
      ([in], [count], [rindex], slicing) are written out.
    - The host regular-expression module [re] is an interface
      ([Engine]): what compiling a pattern string reports, and what an
      anchored match at an offset returns.  [PyRe] is a small executable
      instance (a parser and a backtracking matcher for a subset of the
      [re] syntax) on which the concrete scenarios are evaluated.
    - Code that can raise returns an [outcome]; loops whose termination
      is not structural take fuel, and [Diverge] is the result of
      running out of it.
    - Dictionaries are [gmap]s, [frozenset]s are [gset]s. *)

From Stdlib Require Import Ascii String ZArith Lia Sorted Permutation.
From stdpp Require Import gmap strings list.

Open Scope string_scope.

(** ** Python string operations used by the lexer *)

Module Str.

(** [c in s] for a one-character [c]. *)
Fixpoint has_char (c : ascii) (s : string) : bool :=
  match s with
  | EmptyString => false
  | String x s' => if Ascii.eqb x c then true else has_char c s'
  end.

(** [sub in s]: substring test. *)
Fixpoint contains (sub s : string) : bool :=
  if String.prefix sub s then true
  else match s with
       | EmptyString => false
       | String _ s' => contains sub s'
       end.

(** [s.count(c)] for a one-character [c]. *)
Fixpoint count (c : ascii) (s : string) : nat :=
  match s with
  | EmptyString => 0
  | String x s' => (if Ascii.eqb x c then 1 else 0) + count c s'
  end.

(** [s.rindex(c)]: the highest index holding [c]; [None] where Python
    raises [ValueError]. *)
Fixpoint rindex (c : ascii) (s : string) : option nat :=
  match s with
  | EmptyString => None
  | String x s' =>
      match rindex c s' with
      | Some i => Some (S i)
      | None => if Ascii.eqb x c then Some 0 else None
      end
  end.

(** [s[pos:]]. *)
Fixpoint from (pos : nat) (s : string) : string :=
  match pos, s with
  | 0, _ => s
  | S _, EmptyString => EmptyString
  | S p, String _ s' => from p s'
  end.

(** [sep.join(parts)]. *)
Fixpoint join (sep : string) (parts : list string) : string :=
  match parts with
  | [] => ""
  | [p] => p
  | p :: ps => p ++ sep ++ join sep ps
  end.

Definition newline : ascii := Ascii.ascii_of_nat 10.

(** [s[:pos]]. *)
Fixpoint upto (pos : nat) (s : string) : string :=
  match pos, s with
  | 0, _ => EmptyString
  | S _, EmptyString => EmptyString
  | S p, String c s' => String c (upto p s')
  end.

End Str.

(** ** Results of code that may raise or loop *)

(** The exceptions the module raises or lets through. *)
Inductive exn :=
| LexError_cannot_compile (name : string)
| LexError_zero_width (name : string)
| AssertionError
| ReError
| KeyError.

Inductive outcome (A : Type) :=
| Ret (a : A)
| Raise (e : exn)
| Diverge.
Arguments Ret {A} a.
Arguments Raise {A} e.
Arguments Diverge {A}.

Global Instance outcome_ret : MRet outcome := fun A a => Ret a.

Global Instance outcome_bind : MBind outcome := fun A B k m =>
  match m with
  | Ret a => k a
  | Raise e => Raise e
  | Diverge => Diverge
  end.

(** ** The host regular-expression engine *)

(** What [re.compile(p)] does with a pattern string: it returns a
    compiled pattern, raises [AssertionError] because the pattern has
    more groups than the engine supports, or raises another error. *)
Inductive compile_status := Compiled | TooManyGroups | BadPattern.

(** [re_compile p] is the outcome of [re.compile(p)];
    [re_match p s pos] is [re.compile(p).match(s, pos)]: [Some v] with
    [v = m.group(0)] when the pattern matches at offset [pos] exactly,
    [None] otherwise. *)
Class Engine := {
  re_compile : string -> compile_status;
  re_match : string -> string -> nat -> option string;
}.

(** What every host engine guarantees: a match is a slice of the
    subject that starts at the offset, and the empty pattern compiles. *)
Record EngineLaws (E : Engine) : Prop := {
  re_match_slice : forall p s pos v,
    re_match p s pos = Some v -> exists rest, Str.from pos s = v ++ rest;
  re_compile_empty : re_compile "" = Compiled;
}.

(** ** [PyRe]: an executable engine for a subset of the [re] syntax

    Supported: literal characters, [.], [$], the escapes [\n \t \r \s
    \d \w] and escaped punctuation, character sets [[a-z]] and
    [[^...]], the quantifiers [* + ?], alternation, and the groups
    [(...)], [(?:...)] and [(?P<name>...)].  Matching is backtracking
    with greedy quantifiers and leftmost alternative first, as in
    CPython. *)

Module PyRe.

Inductive cset_item :=
| CRange (lo hi : ascii)
| CSpace
| CDigit
| CWord.

Inductive regex :=
| REps
| RChar (c : ascii)
| RAny
| RSet (neg : bool) (items : list cset_item)
| RSeq (a b : regex)
| RAlt (a b : regex)
| RStar (a : regex)
| RPlus (a : regex)
| ROpt (a : regex)
| REnd.

Definition code (c : ascii) : nat := Ascii.nat_of_ascii c.

Definition between (lo hi c : nat) : bool := (lo <=? c)%nat && (c <=? hi)%nat.

Definition is_space (c : ascii) : bool :=
  let n := code c in between 9 13 n || (n =? 32)%nat.

Definition is_digit (c : ascii) : bool := between 48 57 (code c).

Definition is_alpha (c : ascii) : bool :=
  let n := code c in between 65 90 n || between 97 122 n.

Definition is_word (c : ascii) : bool :=
  is_alpha c || is_digit c || (code c =? 95)%nat.

Definition item_has (c : ascii) (i : cset_item) : bool :=
  match i with
  | CRange lo hi => between (code lo) (code hi) (code c)
  | CSpace => is_space c
  | CDigit => is_digit c
  | CWord => is_word c
  end.

Definition set_has (neg : bool) (items : list cset_item) (c : ascii) : bool :=
  xorb neg (existsb (item_has c) items).

(** *** Matching *)

(** [star f fuel s]: the ways [f] can be iterated from [s], most
    iterations first; an iteration that consumes nothing is dropped. *)
Fixpoint star (f : list ascii -> list (list ascii)) (fuel : nat)
    (s : list ascii) : list (list ascii) :=
  match fuel with
  | 0 => [s]
  | S fuel' =>
      flat_map (fun s' => if (length s' <? length s)%nat then star f fuel' s' else [])
               (f s) ++ [s]
  end.

(** [run r s]: the inputs left after [r] has matched a prefix of [s],
    in the order the backtracking engine tries them. *)
Fixpoint run (r : regex) (s : list ascii) : list (list ascii) :=
  match r with
  | REps => [s]
  | RChar c =>
      match s with
      | x :: s' => if Ascii.eqb x c then [s'] else []
      | [] => []
      end
  | RAny =>
      match s with
      | x :: s' => if Ascii.eqb x Str.newline then [] else [s']
      | [] => []
      end
  | RSet neg items =>
      match s with
      | x :: s' => if set_has neg items x then [s'] else []
      | [] => []
      end
  | RSeq a b => flat_map (run b) (run a s)
  | RAlt a b => run a s ++ run b s
  | RStar a => star (run a) (length s) s
  | RPlus a => flat_map (fun s' => star (run a) (length s') s') (run a s)
  | ROpt a => run a s ++ [s]
  | REnd =>
      match s with
      | [] => [s]
      | [x] => if Ascii.eqb x Str.newline then [s] else []
      | _ => []
      end
  end.

(** *** Parsing *)

(** A parse result: the expression, the number of capturing groups, the
    group names, and the input left. *)
Definition parsed : Type := regex * nat * list string * list ascii.

(** What stands behind a backslash: a control character, a class, or
    the character itself when it is neither a letter nor a digit (an
    escaped underscore is an underscore). *)
Definition escape_class (c : ascii) : option regex :=
  match c with
  | "n"%char => Some (RChar Str.newline)
  | "t"%char => Some (RChar (Ascii.ascii_of_nat 9))
  | "r"%char => Some (RChar (Ascii.ascii_of_nat 13))
  | "s"%char => Some (RSet false [CSpace])
  | "d"%char => Some (RSet false [CDigit])
  | "w"%char => Some (RSet false [CWord])
  | "S"%char => Some (RSet true [CSpace])
  | "D"%char => Some (RSet true [CDigit])
  | "W"%char => Some (RSet true [CWord])
  | _ => if is_alpha c || is_digit c then None else Some (RChar c)
  end.

Definition escape_item (c : ascii) : option cset_item :=
  match c with
  | "n"%char => Some (CRange Str.newline Str.newline)
  | "t"%char => Some (CRange (Ascii.ascii_of_nat 9) (Ascii.ascii_of_nat 9))
  | "r"%char => Some (CRange (Ascii.ascii_of_nat 13) (Ascii.ascii_of_nat 13))
  | "s"%char => Some CSpace
  | "d"%char => Some CDigit
  | "w"%char => Some CWord
  | _ => if is_alpha c || is_digit c then None else Some (CRange c c)
  end.

(** The items of a character set up to the closing bracket. *)
Fixpoint parse_items (fuel : nat) (first : bool) (s : list ascii)
    : option (list cset_item * list ascii) :=
  match fuel with
  | 0 => None
  | S fuel' =>
      match s with
      | [] => None
      | "]"%char :: rest =>
          if first
          then '(items, rest') ← parse_items fuel' false rest;
               Some (CRange "]"%char "]"%char :: items, rest')
          else Some ([], rest)
      | "\"%char :: c :: rest =>
          i ← escape_item c;
          '(items, rest') ← parse_items fuel' false rest;
          Some (i :: items, rest')
      | lo :: "-"%char :: hi :: rest =>
          if Ascii.eqb hi "]"%char
          then '(items, rest') ← parse_items fuel' false ("-"%char :: hi :: rest);
               Some (CRange lo lo :: items, rest')
          else '(items, rest') ← parse_items fuel' false rest;
               Some (CRange lo hi :: items, rest')
      | c :: rest =>
          '(items, rest') ← parse_items fuel' false rest;
          Some (CRange c c :: items, rest')
      end
  end.

Definition parse_set (s : list ascii) : option (regex * list ascii) :=
  match s with
  | "^"%char :: rest =>
      '(items, rest') ← parse_items (S (length rest)) true rest;
      Some (RSet true items, rest')
  | _ =>
      '(items, rest') ← parse_items (S (length s)) true s;
      Some (RSet false items, rest')
  end.

(** A group name up to the closing [>]. *)
Fixpoint parse_name (s : list ascii) : option (string * list ascii) :=
  match s with
  | [] => None
  | c :: rest =>
      if Ascii.eqb c ">"%char then Some ("", rest)
      else if is_word c
           then '(n, rest') ← parse_name rest; Some (String c n, rest')
           else None
  end.

Definition parse_quant (a : regex) (s : list ascii) : regex * list ascii :=
  match s with
  | "*"%char :: rest => (RStar a, rest)
  | "+"%char :: rest => (RPlus a, rest)
  | "?"%char :: rest => (ROpt a, rest)
  | _ => (a, s)
  end.

Definition expect_close (p : parsed) : option (regex * nat * list string * list ascii) :=
  match p with
  | (r, n, names, ")"%char :: rest) => Some (r, n, names, rest)
  | _ => None
  end.

Fixpoint parse_alt (fuel : nat) (s : list ascii) : option parsed :=
  match fuel with
  | 0 => None
  | S fuel' =>
      '(a, n, names, rest) ← parse_seq fuel' s;
      match rest with
      | "|"%char :: rest' =>
          '(b, n', names', rest'') ← parse_alt fuel' rest';
          Some (RAlt a b, n + n', (names ++ names')%list, rest'')
      | _ => Some (a, n, names, rest)
      end
  end
with parse_seq (fuel : nat) (s : list ascii) : option parsed :=
  match fuel with
  | 0 => None
  | S fuel' =>
      match s with
      | [] => Some (REps, 0, [], s)
      | "|"%char :: _ => Some (REps, 0, [], s)
      | ")"%char :: _ => Some (REps, 0, [], s)
      | _ =>
          '(a, n, names, rest) ← parse_atom fuel' s;
          let '(a', rest') := parse_quant a rest in
          '(b, n', names', rest'') ← parse_seq fuel' rest';
          Some (RSeq a' b, n + n', (names ++ names')%list, rest'')
      end
  end
with parse_atom (fuel : nat) (s : list ascii) : option parsed :=
  match fuel with
  | 0 => None
  | S fuel' =>
      match s with
      | "("%char :: "?"%char :: ":"%char :: rest =>
          p ← parse_alt fuel' rest; expect_close p
      | "("%char :: "?"%char :: "P"%char :: "<"%char :: rest =>
          '(name, rest') ← parse_name rest;
          p ← parse_alt fuel' rest';
          '(r, n, names, rest'') ← expect_close p;
          Some (r, S n, name :: names, rest'')
      | "("%char :: "?"%char :: _ => None
      | "("%char :: rest =>
          p ← parse_alt fuel' rest;
          '(r, n, names, rest') ← expect_close p;
          Some (r, S n, names, rest')
      | "["%char :: rest =>
          '(r, rest') ← parse_set rest; Some (r, 0, [], rest')
      | "."%char :: rest => Some (RAny, 0, [], rest)
      | "$"%char :: rest => Some (REnd, 0, [], rest)
      | "\"%char :: c :: rest =>
          r ← escape_class c; Some (r, 0, [], rest)
      | "\"%char :: [] => None
      | "*"%char :: _ => None
      | "+"%char :: _ => None
      | "?"%char :: _ => None
      | c :: rest => Some (RChar c, 0, [], rest)
      | [] => None
      end
  end.

(** The whole pattern must be consumed. *)
Definition parse (p : string) : option (regex * nat * list string) :=
  let s := list_ascii_of_string p in
  '(r, n, names, rest) ← parse_alt (3 * length s + 3) s;
  match rest with
  | [] => Some (r, n, names)
  | _ => None
  end.

(** The engine's ceiling: CPython's [sre_compile] of the time refuses,
    with an [AssertionError], a pattern whose group counter (the
    capturing groups and group 0) exceeds 100. *)
Definition MAXGROUPS : nat := 100.

Definition compile (p : string) : compile_status :=
  match parse p with
  | None => BadPattern
  | Some (_, n, names) =>
      if bool_decide (NoDup names)
      then if (MAXGROUPS <? S n)%nat then TooManyGroups else Compiled
      else BadPattern
  end.

(** [pattern.match(s, pos)]: the first way the expression matches the
    input from [pos] on; the value is what was consumed. *)
Definition match_at (p s : string) (pos : nat) : option string :=
  match parse p with
  | None => None
  | Some (r, _, _) =>
      let input := list_ascii_of_string (Str.from pos s) in
      match run r input with
      | [] => None
      | rest :: _ =>
          Some (string_of_list_ascii (take (length input - length rest) input))
      end
  end.

(** The least number of characters an expression consumes. *)
Fixpoint min_len (r : regex) : nat :=
  match r with
  | REps => 0
  | RChar _ => 1
  | RAny => 1
  | RSet _ _ => 1
  | RSeq a b => min_len a + min_len b
  | RAlt a b => Nat.min (min_len a) (min_len b)
  | RStar _ => 0
  | RPlus a => min_len a
  | ROpt _ => 0
  | REnd => 0
  end.

End PyRe.

#[global] Instance PyRe_engine : Engine := {|
  re_compile := PyRe.compile;
  re_match := PyRe.match_at;
|}.

(** ** Data model *)

(** [type(t.pattern)]: the two pattern classes of [lark.common]. *)
Inductive pattern_class := PatternStr | PatternRE.

Global Instance pattern_class_eq_dec : EqDecision pattern_class.
Proof. solve_decision. Defined.

(** A pattern object, as the lexer sees it: its class and the
    attributes the lexer reads ([value], [flags], [to_regexp()],
    [min_width], [max_width]). *)
Module Pattern.
Record t := mk {
  class : pattern_class;
  value : string;
  flags : gset string;
  to_regexp : string;
  min_width : Z;
  max_width : Z;
}.
End Pattern.

Global Instance Pattern_eq_dec : EqDecision Pattern.t.
Proof. solve_decision. Defined.

Module TokenDef.
Record t := mk {
  name : string;
  pattern : Pattern.t;
  priority : Z;
}.
End TokenDef.

Global Instance TokenDef_eq_dec : EqDecision TokenDef.t.
Proof. solve_decision. Defined.

(** [class Token(Str)]: a string (its character content is [value])
    with a type and a position. *)
Module Token.
Record t := mk {
  type : string;
  value : string;
  pos_in_stream : nat;
  line : nat;
  column : nat;
}.

(** What a [Token] can be compared with. *)
Inductive operand :=
| OfToken (other : t)
| OfStr (other : string).

(** [Token.__eq__]: [Str.__eq__] compares the character content. *)
Definition __eq__ (self : t) (other : operand) : bool :=
  match other with
  | OfToken o =>
      if negb (String.eqb (type self) (type o)) then false
      else String.eqb (value self) (value o)
  | OfStr s => String.eqb (value self) s
  end.

Definition set_type (self : t) (type_ : string) : t :=
  mk type_ (value self) (pos_in_stream self) (line self) (column self).

(** [Token.new_borrow_pos(type_, value, borrow_t)]. *)
Definition new_borrow_pos (type_ value : string) (borrow_t : t) : t :=
  mk type_ value (pos_in_stream borrow_t) (line borrow_t) (column borrow_t).

(** [Token.__deepcopy__]. *)
Definition __deepcopy__ (self : t) : t :=
  mk (type self) (value self) (pos_in_stream self) (line self) (column self).
End Token.

(** [UnexpectedInput]: the attributes set by [__init__], and the
    offending character [seq[lex_pos]] that goes into the message. *)
Module UnexpectedInput.
Record t := mk {
  char : string;
  line : nat;
  column : nat;
  context : string;
  allowed : option (list string);
}.

Definition __init__ (seq : string) (lex_pos line column : nat) : t :=
  mk (substring lex_pos 1 seq) line column (substring lex_pos 5 seq) None.
End UnexpectedInput.

(** A generator step: a value was yielded, the generator returned, an
    [UnexpectedInput] was raised, another exception was raised, or the
    step did not end within the fuel. *)
Inductive step (A S : Type) :=
| Yielded (a : A) (s : S)
| StopIteration
| Unexpected (e : UnexpectedInput.t)
| Failed (e : exn)
| Running.
Arguments Yielded {A S} a s.
Arguments StopIteration {A S}.
Arguments Unexpected {A S} e.
Arguments Failed {A S} e.
Arguments Running {A S}.

(** ** [_regexp_has_newline] *)

Definition _regexp_has_newline (r : string) : bool :=
  Str.contains (String Str.newline "") r
  || Str.contains "\n" r
  || (Str.contains "(?s)" r && Str.contains "." r).

(** ** Compiled matchers *)

(** A compiled disjunction [(?P<n1>p1)|(?P<n2>p2)|...], kept as its
    named alternatives in group order.  The pair [(mre,
    type_from_index)] of the source is this list: [m.lastindex] is the
    group of the alternative that matched, and [type_from_index] maps it
    back to the name. *)
Definition CompiledMatcher : Type := list (string * string).

(** ** [LineCounter] *)

Module LineCounter.
Record t := mk {
  char_pos : nat;
  line : nat;
  column : nat;
  line_start_pos : nat;
}.

(** [newline_char] is the constant ['\n']. *)
Definition __init__ : t := mk 0 1 0 0.

Definition feed (self : t) (token : string) (test_newline : bool) : t :=
  let newlines := if test_newline then Str.count Str.newline token else 0 in
  let line' :=
    if (newlines =? 0)%nat then line self else line self + newlines in
  let line_start_pos' :=
    if (newlines =? 0)%nat then line_start_pos self
    else match Str.rindex Str.newline token with
         | Some i => char_pos self + i + 1
         | None => line_start_pos self
         end in
  let char_pos' := char_pos self + String.length token in
  mk char_pos' line' (char_pos' - line_start_pos') line_start_pos'.
End LineCounter.

(** ** [Lexer] and [_Lex] objects *)

Module Lexer.
Record t := mk {
  ignore : list string;
  newline_types : list string;
  ignore_types : list string;
  callback : gmap string (list CompiledMatcher);
  tokens : list TokenDef.t;
  mres : list CompiledMatcher;
}.
End Lexer.

(** The [_Lex] object: its one attribute. *)
Module _Lex.
Record t := mk { lexer : Lexer.t }.

(** [l.lexer = lexer]. *)
Definition set_lexer (self : t) (lexer : Lexer.t) : t := mk lexer.
End _Lex.

(** [ContextualLexer]: the attributes set by [__init__]; parser states
    are numbered, and [parser_state] is [None] until it is set from the
    outside. *)
Module ContextualLexer.
Record t := mk {
  lexers : gmap nat Lexer.t;
  root_lexer : Lexer.t;
  parser_state : option nat;
}.

Definition set_parser_state (self : t) (state : option nat) : t :=
  mk (lexers self) (root_lexer self) state.
End ContextualLexer.

Section WithEngine.
Context {E : Engine}.

(** [mre.match(s, pos)]: the engine takes the leftmost alternative that
    matches at [pos]; the result is [(m.group(0),
    type_from_index[m.lastindex])]. *)
Fixpoint mre_match (mre : CompiledMatcher) (s : string) (pos : nat)
    : option (string * string) :=
  match mre with
  | [] => None
  | (n, p) :: mre' =>
      match re_match p s pos with
      | Some v => Some (v, n)
      | None => mre_match mre' s pos
      end
  end.

(** [for mre, type_from_index in mres: m = mre.match(s, pos); if m:
    ... break]: the first matcher that matches. *)
Fixpoint mres_match (mres : list CompiledMatcher) (s : string) (pos : nat)
    : option (string * string) :=
  match mres with
  | [] => None
  | mre :: mres' =>
      match mre_match mre s pos with
      | Some m => Some m
      | None => mres_match mres' s pos
      end
  end.

(** ** [_build_mres] *)

Definition postfix_of (match_whole : bool) : string :=
  if match_whole then "$" else "".

(** ['(?P<%s>%s)' % (t.name, t.pattern.to_regexp() + postfix)]. *)
Definition named_group (postfix : string) (t : TokenDef.t) : string :=
  "(?P<" ++ TokenDef.name t ++ ">"
  ++ Pattern.to_regexp (TokenDef.pattern t) ++ postfix ++ ")".

Definition joined (postfix : string) (batch : list TokenDef.t) : string :=
  Str.join "|" (map (named_group postfix) batch).

Definition alternatives (postfix : string) (batch : list TokenDef.t)
    : CompiledMatcher :=
  map (fun t => (TokenDef.name t,
                 Pattern.to_regexp (TokenDef.pattern t) ++ postfix)) batch.

(** One unit of fuel per pass of the [while] loop and per recursive
    call.  [mres] is the list accumulated by the current call; the
    recursive call of the [except] branch starts from an empty one and
    its result is returned as it is. *)
Fixpoint _build_mres (fuel : nat) (tokens : list TokenDef.t) (max_size : nat)
    (match_whole : bool) (mres : list CompiledMatcher)
    : outcome (list CompiledMatcher) :=
  match fuel with
  | 0 => Diverge
  | S fuel' =>
      match tokens with
      | [] => Ret mres
      | _ =>
          let postfix := postfix_of match_whole in
          match re_compile (joined postfix (take max_size tokens)) with
          | TooManyGroups =>
              _build_mres fuel' tokens (max_size / 2) match_whole []
          | BadPattern => Raise ReError
          | Compiled =>
              _build_mres fuel' (drop max_size tokens) max_size match_whole
                (mres ++ [alternatives postfix (take max_size tokens)])%list
          end
      end
  end.

Definition build_mres (fuel : nat) (tokens : list TokenDef.t)
    (match_whole : bool) : outcome (list CompiledMatcher) :=
  _build_mres fuel tokens (length tokens) match_whole [].

(** ** [_create_unless] *)

(** The closure returned by [_create_unless_callback(strs)] is
    represented by the [mres] it captures. *)
Definition _create_unless_callback (fuel : nat) (strs : list TokenDef.t)
    : outcome (list CompiledMatcher) :=
  build_mres fuel strs true.

(** [unless_callback(t)]. *)
Definition unless_callback (mres : list CompiledMatcher) (t : Token.t) : Token.t :=
  match mres_match mres (Token.value t) 0 with
  | Some (_, type_) => Token.set_type t type_
  | None => t
  end.

(** [classify(tokens, lambda t: type(t.pattern)).get(c, [])]. *)
Definition tokens_by_type (tokens : list TokenDef.t) (c : pattern_class)
    : list TokenDef.t :=
  List.filter (fun t => bool_decide (Pattern.class (TokenDef.pattern t) = c)) tokens.

(** [m = re.match(retok.pattern.to_regexp(), s); m and m.group(0) == s]. *)
Definition accepts_whole (retok strtok : TokenDef.t) : bool :=
  let s := Pattern.value (TokenDef.pattern strtok) in
  match re_match (Pattern.to_regexp (TokenDef.pattern retok)) s 0 with
  | Some g0 => String.eqb g0 s
  | None => false
  end.

Definition flags_le (strtok retok : TokenDef.t) : bool :=
  bool_decide (Pattern.flags (TokenDef.pattern strtok)
               ⊆ Pattern.flags (TokenDef.pattern retok)).

(** The [for retok] loop, with [embedded_strs] and [callback] threaded
    through. *)
Fixpoint _create_unless_loop (fuel : nat) (retoks strtoks : list TokenDef.t)
    (embedded_strs : list TokenDef.t)
    (callback : gmap string (list CompiledMatcher))
    : outcome (list TokenDef.t * gmap string (list CompiledMatcher)) :=
  match retoks with
  | [] => Ret (embedded_strs, callback)
  | retok :: retoks' =>
      let unless := List.filter (accepts_whole retok) strtoks in
      let embedded_strs :=
        (embedded_strs ++ List.filter (fun strtok => flags_le strtok retok) unless)%list in
      match unless with
      | [] => _create_unless_loop fuel retoks' strtoks embedded_strs callback
      | _ =>
          cb ← _create_unless_callback fuel unless;
          _create_unless_loop fuel retoks' strtoks embedded_strs
            (<[TokenDef.name retok := cb]> callback)
      end
  end.

Definition _create_unless (fuel : nat) (tokens : list TokenDef.t)
    : outcome (list TokenDef.t * gmap string (list CompiledMatcher)) :=
  '(embedded_strs, callback) ←
    _create_unless_loop fuel (tokens_by_type tokens PatternRE)
      (tokens_by_type tokens PatternStr) [] ∅;
  Ret (List.filter (fun t => negb (bool_decide (t ∈ embedded_strs))) tokens,
       callback).


(** ** [Lexer.__init__] *)

(** The sort key [(-x.priority, -x.pattern.max_width,
    -len(x.pattern.value), x.name)]. *)
Definition sort_key (x : TokenDef.t) : Z * Z * Z * string :=
  (- TokenDef.priority x,
   - Pattern.max_width (TokenDef.pattern x),
   - Z.of_nat (String.length (Pattern.value (TokenDef.pattern x))),
   TokenDef.name x)%Z.

(** Tuple comparison: the first component that differs decides. *)
Definition key_compare (k1 k2 : Z * Z * Z * string) : comparison :=
  let '(a1, b1, c1, n1) := k1 in
  let '(a2, b2, c2, n2) := k2 in
  match (a1 ?= a2)%Z with
  | Eq => match (b1 ?= b2)%Z with
          | Eq => match (c1 ?= c2)%Z with
                  | Eq => String.compare n1 n2
                  | c => c
                  end
          | c => c
          end
  | c => c
  end.

Definition key_leb (x y : TokenDef.t) : bool :=
  match key_compare (sort_key x) (sort_key y) with
  | Gt => false
  | _ => true
  end.

(** [tokens.sort(key=...)]: Python's sort is stable; so is this
    insertion sort, which puts an element in front of the first one
    whose key is not smaller. *)
Fixpoint sort_insert (x : TokenDef.t) (l : list TokenDef.t) : list TokenDef.t :=
  match l with
  | [] => [x]
  | y :: l' => if key_leb x y then x :: l else y :: sort_insert x l'
  end.

Definition sort_tokens (tokens : list TokenDef.t) : list TokenDef.t :=
  foldr sort_insert [] tokens.


Definition str_in (x : string) (l : list string) : bool :=
  existsb (String.eqb x) l.

(** The sanitization loop of [Lexer.__init__]; the bare [except]
    catches whatever [re.compile] raises. *)
Fixpoint sanitize (tokens : list TokenDef.t) : outcome unit :=
  match tokens with
  | [] => Ret ()
  | t :: tokens' =>
      match re_compile (Pattern.to_regexp (TokenDef.pattern t)) with
      | Compiled =>
          if (Pattern.min_width (TokenDef.pattern t) =? 0)%Z
          then Raise (LexError_zero_width (TokenDef.name t))
          else sanitize tokens'
      | _ => Raise (LexError_cannot_compile (TokenDef.name t))
      end
  end.

Definition newline_types_of (tokens : list TokenDef.t) : list string :=
  map TokenDef.name
    (List.filter (fun t => _regexp_has_newline (Pattern.to_regexp (TokenDef.pattern t)))
       tokens).

(** [Lexer.__init__(tokens, ignore)]. *)
Definition Lexer__init__ (fuel : nat) (tokens : list TokenDef.t)
    (ignore : list string) : outcome Lexer.t :=
  _ ← sanitize tokens;
  if negb (forallb (fun n => str_in n (map TokenDef.name tokens)) ignore)
  then Raise AssertionError
  else
    let newline_types := newline_types_of tokens in
    let ignore_types := ignore in
    let tokens := sort_tokens tokens in
    '(tokens, callback) ← _create_unless fuel tokens;
    mres ← build_mres fuel tokens false;
    Ret (Lexer.mk ignore newline_types ignore_types callback tokens mres).

(** ** [_Lex]: the streaming loop *)


(** Where the generator [_Lex.lex] stands between two requests: not yet
    started, or suspended at [yield t] with the locals [line_ctr],
    [value] and [type_] still to be fed. *)
Inductive lex_gen :=
| LexStart
| LexSuspended (line_ctr : LineCounter.t) (value type_ : string).

(** What one pass of the [while True] loop does: it suspends at
    [yield t], goes round again after an ignored match, raises
    [UnexpectedInput], or leaves the loop. *)
Inductive pass :=
| Emit (t : Token.t) (g : lex_gen)
| Continue (line_ctr : LineCounter.t)
| RaiseUnexpected (e : UnexpectedInput.t)
| Break.

(** [if t.type in lexer.callback: t = lexer.callback[t.type](t)]. *)
Definition apply_callback (lexer : Lexer.t) (t : Token.t) : Token.t :=
  match Lexer.callback lexer !! Token.type t with
  | Some cb => unless_callback cb t
  | None => t
  end.

(** The body of the [while True] loop.  The token is built before
    [line_ctr.feed], which runs when the generator is resumed. *)
Definition _Lex_pass (self : _Lex.t) (stream : string)
    (newline_types ignore_types : list string) (line_ctr : LineCounter.t) : pass :=
  let lexer := _Lex.lexer self in
  match mres_match (Lexer.mres lexer) stream (LineCounter.char_pos line_ctr) with
  | Some (value, type_) =>
      if negb (str_in type_ ignore_types)
      then
        let t := Token.mk type_ value (LineCounter.char_pos line_ctr)
                   (LineCounter.line line_ctr) (LineCounter.column line_ctr) in
        Emit (apply_callback lexer t) (LexSuspended line_ctr value type_)
      else
        Continue (LineCounter.feed line_ctr value (str_in type_ newline_types))
  | None =>
      if (LineCounter.char_pos line_ctr <? String.length stream)%nat
      then RaiseUnexpected
             (UnexpectedInput.__init__ stream (LineCounter.char_pos line_ctr)
                (LineCounter.line line_ctr) (LineCounter.column line_ctr))
      else Break
  end.

(** The loop from its top, one unit of fuel per pass. *)
Fixpoint _Lex_loop (fuel : nat) (self : _Lex.t) (stream : string)
    (newline_types ignore_types : list string) (line_ctr : LineCounter.t)
    : step Token.t lex_gen :=
  match fuel with
  | 0 => Running
  | S fuel' =>
      match _Lex_pass self stream newline_types ignore_types line_ctr with
      | Emit t g => Yielded t g
      | Continue line_ctr' =>
          _Lex_loop fuel' self stream newline_types ignore_types line_ctr'
      | RaiseUnexpected e => Unexpected e
      | Break => StopIteration
      end
  end.

(** One request on the generator: run it from where it stands to its
    next [yield], its end or its exception.  [self] is the [_Lex] object
    as it is when the generator is resumed. *)
Definition _Lex_next (fuel : nat) (self : _Lex.t) (stream : string)
    (newline_types ignore_types : list string) (g : lex_gen)
    : step Token.t lex_gen :=
  match g with
  | LexStart =>
      _Lex_loop fuel self stream newline_types ignore_types LineCounter.__init__
  | LexSuspended line_ctr value type_ =>
      _Lex_loop fuel self stream newline_types ignore_types
        (LineCounter.feed line_ctr value (str_in type_ newline_types))
  end.

(** [Lexer.lex(stream)]: one request on
    [_Lex(self).lex(stream, self.newline_types, self.ignore_types)]. *)
Definition Lexer_lex_next (fuel : nat) (self : Lexer.t) (stream : string)
    (g : lex_gen) : step Token.t lex_gen :=
  _Lex_next fuel (_Lex.mk self) stream
    (Lexer.newline_types self) (Lexer.ignore_types self) g.

(** How a consumed sequence ended. *)
Inductive ending :=
| Done
| LexicalError (e : UnexpectedInput.t)
| OtherError (e : exn)
| Unfinished.

(** A consumer that requests every token of [Lexer.lex(stream)]: the
    tokens delivered and how the sequence ended.  [fuel] bounds the
    number of requests, and the passes of each. *)
Fixpoint Lexer_lex_from (fuel n : nat) (self : Lexer.t) (stream : string)
    (g : lex_gen) : list Token.t * ending :=
  match n with
  | 0 => ([], Unfinished)
  | S n' =>
      match Lexer_lex_next fuel self stream g with
      | Yielded t g' =>
          let '(ts, e) := Lexer_lex_from fuel n' self stream g' in (t :: ts, e)
      | StopIteration => ([], Done)
      | Unexpected e => ([], LexicalError e)
      | Failed e => ([], OtherError e)
      | Running => ([], Unfinished)
      end
  end.

Definition Lexer_lex (fuel : nat) (self : Lexer.t) (stream : string)
    : list Token.t * ending :=
  Lexer_lex_from fuel fuel self stream LexStart.

(** *** The states a session goes through *)

(** The line counter with which a suspended generator goes on: a fresh
    one at the start, the fed one after a [yield]. *)
Definition resume_ctr (newline_types : list string) (g : lex_gen) : LineCounter.t :=
  match g with
  | LexStart => LineCounter.__init__
  | LexSuspended line_ctr value type_ =>
      LineCounter.feed line_ctr value (str_in type_ newline_types)
  end.

(** The line counter after the match at the current offset has been
    fed, whether its token is emitted or ignored; [None] when no matcher
    matches there. *)
Definition advance (lexer : Lexer.t) (stream : string) (newline_types : list string)
    (line_ctr : LineCounter.t) : option LineCounter.t :=
  match mres_match (Lexer.mres lexer) stream (LineCounter.char_pos line_ctr) with
  | Some (value, type_) =>
      Some (LineCounter.feed line_ctr value (str_in type_ newline_types))
  | None => None
  end.

Fixpoint advance_n (n : nat) (lexer : Lexer.t) (stream : string)
    (newline_types : list string) (line_ctr : LineCounter.t) : option LineCounter.t :=
  match n with
  | 0 => Some line_ctr
  | S n' =>
      match advance lexer stream newline_types line_ctr with
      | Some line_ctr' => advance_n n' lexer stream newline_types line_ctr'
      | None => None
      end
  end.

(** No matcher matches at the current offset, and input remains. *)
Definition stuck (lexer : Lexer.t) (stream : string) (line_ctr : LineCounter.t) : Prop :=
  mres_match (Lexer.mres lexer) stream (LineCounter.char_pos line_ctr) = None
  /\ LineCounter.char_pos line_ctr < String.length stream.

(** The error raised at a line counter. *)
Definition error_at (stream : string) (line_ctr : LineCounter.t) : UnexpectedInput.t :=
  UnexpectedInput.__init__ stream (LineCounter.char_pos line_ctr)
    (LineCounter.line line_ctr) (LineCounter.column line_ctr).

(** ** [ContextualLexer] *)

(** [is_terminal] comes from [lark.common]; the lexer only calls it. *)
Context (is_terminal : string -> bool).

(** The loop that fills [tokens_by_name], with its assertion. *)
Fixpoint tokens_by_name_of (tokens : list TokenDef.t)
    (tokens_by_name : gmap string TokenDef.t) : outcome (gmap string TokenDef.t) :=
  match tokens with
  | [] => Ret tokens_by_name
  | t :: tokens' =>
      match tokens_by_name !! TokenDef.name t with
      | Some _ => Raise AssertionError
      | None => tokens_by_name_of tokens' (<[TokenDef.name t := t]> tokens_by_name)
      end
  end.

(** [[tokens_by_name[n] for n in accepts if is_terminal(n) and n!='$END']]. *)
Fixpoint state_tokens_of (tokens_by_name : gmap string TokenDef.t)
    (accepts : list string) : outcome (list TokenDef.t) :=
  match accepts with
  | [] => Ret []
  | n :: accepts' =>
      if is_terminal n && negb (String.eqb n "$END")
      then match tokens_by_name !! n with
           | Some t =>
               ts ← state_tokens_of tokens_by_name accepts'; Ret (t :: ts)
           | None => Raise KeyError
           end
      else state_tokens_of tokens_by_name accepts'
  end.

(** The loop over [states.items()].  A Python set is iterated in an
    unspecified order; here it is the order of [elements]. *)
Fixpoint states_loop (fuel : nat) (items : list (nat * list string))
    (ignore always_accept : list string)
    (tokens_by_name : gmap string TokenDef.t)
    (lexer_by_tokens : gmap (gset string) Lexer.t)
    (lexers : gmap nat Lexer.t) : outcome (gmap nat Lexer.t) :=
  match items with
  | [] => Ret lexers
  | (state, accepts) :: items' =>
      let key : gset string := list_to_set accepts in
      match lexer_by_tokens !! key with
      | Some lexer =>
          states_loop fuel items' ignore always_accept tokens_by_name
            lexer_by_tokens (<[state := lexer]> lexers)
      | None =>
          let accepts : gset string :=
            list_to_set accepts ∪ list_to_set ignore ∪ list_to_set always_accept in
          state_tokens ← state_tokens_of tokens_by_name (elements accepts);
          lexer ← Lexer__init__ fuel state_tokens ignore;
          states_loop fuel items' ignore always_accept tokens_by_name
            (<[key := lexer]> lexer_by_tokens) (<[state := lexer]> lexers)
      end
  end.

(** [ContextualLexer.__init__(tokens, states, ignore, always_accept)];
    [states] is given by its items. *)
Definition ContextualLexer__init__ (fuel : nat) (tokens : list TokenDef.t)
    (states : list (nat * list string)) (ignore always_accept : list string)
    : outcome ContextualLexer.t :=
  tokens_by_name ← tokens_by_name_of tokens ∅;
  lexers ← states_loop fuel states ignore always_accept tokens_by_name ∅ ∅;
  root_lexer ← Lexer__init__ fuel tokens ignore;
  Ret (ContextualLexer.mk lexers root_lexer None).

(** [self.lexers[self.parser_state]]. *)
Definition current_lexer (self : ContextualLexer.t) : option Lexer.t :=
  state ← ContextualLexer.parser_state self;
  ContextualLexer.lexers self !! state.

(** Where the generator [ContextualLexer.lex] stands between two
    requests: not yet started, or suspended at [yield x] with the [_Lex]
    object [l] and its generator. *)
Inductive ctx_gen :=
| CtxStart
| CtxSuspended (l : _Lex.t) (g : lex_gen).

(** [for x in l.lex(...): yield x]: what the inner generator does is
    passed on. *)
Definition pass_on (l : _Lex.t) (r : step Token.t lex_gen) : step Token.t ctx_gen :=
  match r with
  | Yielded x g' => Yielded x (CtxSuspended l g')
  | StopIteration => StopIteration
  | Unexpected e => Unexpected e
  | Failed e => Failed e
  | Running => Running
  end.

(** One request on [ContextualLexer.lex(stream)].  The first one builds
    [l = _Lex(self.lexers[self.parser_state])]; every later one first
    runs [l.lexer = self.lexers[self.parser_state]] and then resumes the
    inner generator. *)
Definition ContextualLexer_lex_next (fuel : nat) (self : ContextualLexer.t)
    (stream : string) (c : ctx_gen) : step Token.t ctx_gen :=
  match current_lexer self with
  | None => Failed KeyError
  | Some lexer =>
      let '(l, g) :=
        match c with
        | CtxStart => (_Lex.mk lexer, LexStart)
        | CtxSuspended l g => (_Lex.set_lexer l lexer, g)
        end in
      let root := ContextualLexer.root_lexer self in
      pass_on l (_Lex_next fuel l stream
                   (Lexer.newline_types root) (Lexer.ignore_types root) g)
  end.

(** A parser that consumes [ContextualLexer.lex(stream)]: before each
    request it sets the state it has reached on the tokens seen so far. *)
Fixpoint ContextualLexer_lex_from (fuel n : nat) (self : ContextualLexer.t)
    (stream : string) (parser : list Token.t -> option nat)
    (seen : list Token.t) (c : ctx_gen) : list Token.t * ending :=
  match n with
  | 0 => ([], Unfinished)
  | S n' =>
      let self := ContextualLexer.set_parser_state self (parser seen) in
      match ContextualLexer_lex_next fuel self stream c with
      | Yielded x c' =>
          let '(ts, e) :=
            ContextualLexer_lex_from fuel n' self stream parser
              (seen ++ [x])%list c' in
          (x :: ts, e)
      | StopIteration => ([], Done)
      | Unexpected e => ([], LexicalError e)
      | Failed e => ([], OtherError e)
      | Running => ([], Unfinished)
      end
  end.

End WithEngine.

(** ** Token definitions for the scenarios *)

(** [re.escape]: every character that is not alphanumeric is preceded
    by a backslash. *)
Fixpoint re_escape (s : string) : string :=
  match s with
  | EmptyString => EmptyString
  | String c s' =>
      if PyRe.is_alpha c || PyRe.is_digit c then String c (re_escape s')
      else String "\"%char (String c (re_escape s'))
  end.

(** Modelled from the spec: the pattern classes of [lark.common] are
    not in src/.  A literal pattern without flags has its escaped text
    as expression and the length of its text as both widths. *)
Definition pattern_str (value : string) : Pattern.t :=
  Pattern.mk PatternStr value ∅ (re_escape value)
    (Z.of_nat (String.length value)) (Z.of_nat (String.length value)).

(** Modelled from the spec: a regex pattern without flags has its
    source as expression; its widths are declared with it. *)
Definition pattern_re (value : string) (min_width max_width : Z) : Pattern.t :=
  Pattern.mk PatternRE value ∅ value min_width max_width.

(** The width the engine reports for an unbounded repetition. *)
Definition MAXREPEAT : Z := 65535.

Definition literal (name value : string) (priority : Z) : TokenDef.t :=
  TokenDef.mk name (pattern_str value) priority.

Definition IDENT : TokenDef.t :=
  TokenDef.mk "IDENT" (pattern_re "[a-z]+" 1 MAXREPEAT) 0.

Definition IF : TokenDef.t := literal "IF" "if" 0.

Definition WHITESPACE : TokenDef.t :=
  TokenDef.mk "WHITESPACE" (pattern_re "\s+" 1 MAXREPEAT) 0.


(** A literal of priority 10 and two tokens of priority 5 that match
    more text at the same offset: a literal, and a regex that also
    accepts the text of [A_if] in whole. *)
Definition A_if : TokenDef.t := literal "A" "if" 10.
Definition B_ifx : TokenDef.t := literal "B" "ifx" 5.

(** Two regex tokens of equal priority and equal maximum width whose
    sources differ in length. *)
Definition RA : TokenDef.t := TokenDef.mk "A" (pattern_re "a" 1 1) 0.
Definition RB : TokenDef.t := TokenDef.mk "B" (pattern_re "[ab]" 1 1) 0.

(** [n] optional capturing groups in a row. *)
Fixpoint groups (n : nat) : string :=
  match n with
  | 0 => ""
  | S n' => "(x)?" ++ groups n'
  end.

(** Four tokens, in priority order; the last two have 49 capturing
    groups each. *)
Definition G1 : TokenDef.t := TokenDef.mk "A" (pattern_re "a" 1 1) 4.
Definition G2 : TokenDef.t := TokenDef.mk "B" (pattern_re "b" 1 1) 3.
Definition G3 : TokenDef.t :=
  TokenDef.mk "C" (pattern_re ("c" ++ groups 49) 1 50) 2.
Definition G4 : TokenDef.t :=
  TokenDef.mk "D" (pattern_re ("d" ++ groups 49) 1 50) 1.

(** One token with 99 capturing groups: it compiles on its own, and no
    longer once it is wrapped in its named group. *)
Definition BIG : TokenDef.t :=
  TokenDef.mk "BIG" (pattern_re ("e" ++ groups 99) 1 100) 0.

(** In the scenarios every name is a terminal. *)
Definition every_name (n : string) : bool := true.

(** Two parser states: state 1 accepts [A], state 2 accepts [B]. *)
Definition TA : TokenDef.t := literal "A" "a" 0.
Definition TB : TokenDef.t := literal "B" "b" 0.
Definition two_states : list (nat * list string) := [(1, ["A"]); (2, ["B"])].

(** ** The token order *)

Section Order.
Let p (x : TokenDef.t) : Z := TokenDef.priority x.
Let w (x : TokenDef.t) : Z := Pattern.max_width (TokenDef.pattern x).
Let len (x : TokenDef.t) : Z :=
  Z.of_nat (String.length (Pattern.value (TokenDef.pattern x))).
Let name_le (x y : TokenDef.t) : Prop :=
  String.leb (TokenDef.name x) (TokenDef.name y) = true.
Let both_literal (x y : TokenDef.t) : bool :=
  bool_decide (Pattern.class (TokenDef.pattern x) = PatternStr)
  && bool_decide (Pattern.class (TokenDef.pattern y) = PatternStr).

(** [x] may stand before [y] under the code's sort key: higher
    priority; then wider maximum width; then longer [pattern.value],
    whatever the pattern class; then name. *)
Definition precedes (x y : TokenDef.t) : Prop :=
  (p y < p x
   \/ p x = p y
      /\ (w y < w x
          \/ w x = w y
             /\ (len y < len x \/ len x = len y /\ name_le x y)))%Z.

(** The order in the spec's words: the length of the value breaks a
    tie between literal tokens only. *)
Definition stated_precedes (x y : TokenDef.t) : Prop :=
  (p y < p x
   \/ p x = p y
      /\ (w y < w x
          \/ w x = w y
             /\ if both_literal x y
                then len y < len x \/ len x = len y /\ name_le x y
                else name_le x y))%Z.
End Order.

(** The claim that the order computed at construction is the stated
    one. *)
Definition stated_order_holds (tokens : list TokenDef.t) : Prop :=
  StronglySorted stated_precedes (sort_tokens tokens).

(** The tokens with a given sort key, in list order. *)
Definition with_key (k : Z * Z * Z * string) (tokens : list TokenDef.t)
    : list TokenDef.t :=
  List.filter (fun t => bool_decide (sort_key t = k)) tokens.

(** ** Two properties in the spec's words *)




(** ** The tokens behind the compiled matchers *)

Definition alternatives_of (mres : list CompiledMatcher) : list (string * string) :=
  concat mres.

(** The tokens of [lexer.tokens] that [lexer.mres] was compiled from:
    as many as there are alternatives, from the end of the list. *)
Definition matcher_tokens (lexer : Lexer.t) : list TokenDef.t :=
  drop (length (Lexer.tokens lexer) - length (alternatives_of (Lexer.mres lexer)))
       (Lexer.tokens lexer).

(** A token for runs of newlines; its source holds a backslash and an
    [n]. *)
Definition NEWLINE : TokenDef.t :=
  TokenDef.mk "NEWLINE" (pattern_re "\n+" 1 MAXREPEAT) 0.

(** A token that may match the empty string, and one whose source is
    not an expression. *)
Definition EMPTY : TokenDef.t :=
  TokenDef.mk "EMPTY" (pattern_re "a*" 0 MAXREPEAT) 0.
Definition BROKEN : TokenDef.t :=
  TokenDef.mk "BROKEN" (pattern_re "(" 1 1) 0.

(** Three lexers, as [Lexer.__init__] builds them. *)
Definition ident_ws_lexer : Lexer.t :=
  Lexer.mk ["WHITESPACE"] [] ["WHITESPACE"] ∅ [IDENT; WHITESPACE]
    [alternatives "" [IDENT; WHITESPACE]].

Definition ident_nl_lexer : Lexer.t :=
  Lexer.mk [] ["NEWLINE"] [] ∅ [IDENT; NEWLINE]
    [alternatives "" [IDENT; NEWLINE]].

Definition if_ifx_lexer : Lexer.t :=
  Lexer.mk [] [] [] ∅ [A_if; B_ifx] [alternatives "" [A_if; B_ifx]].

(** ** Positions in a text *)

(** The line (from 1) and the column (from 0) of the offset [pos] of a
    text, read off the text itself: the newlines before the offset, and
    the distance to the last of them. *)
Definition line_of (pos : nat) (text : string) : nat :=
  1 + Str.count Str.newline (Str.upto pos text).

Definition column_of (pos : nat) (text : string) : nat :=
  match Str.rindex Str.newline (Str.upto pos text) with
  | Some i => pos - (i + 1)
  | None => pos
  end.

(** ** An engine with a small ceiling *)

(** [PyRe] with a ceiling of [ceiling] on the group counter instead of
    [PyRe.MAXGROUPS]. *)
Definition PyRe_compile_under (ceiling : nat) (p : string) : compile_status :=
  match PyRe.parse p with
  | None => BadPattern
  | Some (_, n, names) =>
      if bool_decide (NoDup names)
      then if (ceiling <? S n)%nat then TooManyGroups else Compiled
      else BadPattern
  end.

Definition PyRe_under (ceiling : nat) : Engine := {|
  re_compile := PyRe_compile_under ceiling;
  re_match := PyRe.match_at;
|}.

(** Five literals of distinct texts. *)
Definition five_literals : list TokenDef.t :=
  [literal "K1" "aa" 0; literal "K2" "bb" 0; literal "K3" "cc" 0;
   literal "K4" "dd" 0; literal "K5" "ee" 0].

(** The lexers of the two states of [two_states] over [TA] and [TB],
    and their contextual lexer, as [ContextualLexer.__init__] builds
    them. *)
Definition TA_lexer : Lexer.t := Lexer.mk [] [] [] ∅ [TA] [alternatives "" [TA]].
Definition TB_lexer : Lexer.t := Lexer.mk [] [] [] ∅ [TB] [alternatives "" [TB]].
Definition two_state_lexer : ContextualLexer.t :=
  ContextualLexer.mk {[1 := TA_lexer; 2 := TB_lexer]}
    (Lexer.mk [] [] [] ∅ [TA; TB] [alternatives "" [TA; TB]]) None.

(** The line counter with which a suspended generator of
    [ContextualLexer.lex] goes on. *)
Definition ctx_resume_ctr (newline_types : list string) (c : ctx_gen) : LineCounter.t :=
  match c with
  | CtxStart => LineCounter.__init__
  | CtxSuspended _ g => resume_ctr newline_types g
  end.

(** * Properties *)

(** ** Token equality *)

(** C10.  A [Token] equals a plain string exactly when its character
    content is that string, whatever its type; two [Token]s are equal
    exactly when their types and their character contents are equal. *)
Theorem Token_eq_spec :
  (forall (t : Token.t) (s : string),
      Token.__eq__ t (Token.OfStr s) = true <-> Token.value t = s)
  /\ (forall t u : Token.t,
      Token.__eq__ t (Token.OfToken u) = true
      <-> Token.type t = Token.type u /\ Token.value t = Token.value u).
Proof.
  split.
  - intros t s. cbn. apply String.eqb_eq.
  - intros t u. cbn.
    destruct (String.eqb_spec (Token.type t) (Token.type u)) as [Ht | Ht]; cbn.
    + rewrite String.eqb_eq. tauto.
    + split; [discriminate | tauto].
Qed.

(** ** The sort of [Lexer.__init__] *)

Lemma ascii_compare_trans a b c o :
  Ascii.compare a b = o -> Ascii.compare b c = o -> Ascii.compare a c = o.
Proof.
  unfold Ascii.compare. intros H1 H2. destruct o.
  - apply N.compare_eq_iff in H1. apply N.compare_eq_iff in H2.
    apply N.compare_eq_iff. congruence.
  - apply N.compare_lt_iff in H1. apply N.compare_lt_iff in H2.
    apply N.compare_lt_iff. eapply N.lt_trans; eassumption.
  - apply N.compare_gt_iff in H1. apply N.compare_gt_iff in H2.
    apply N.compare_gt_iff. eapply N.lt_trans; eassumption.
Qed.

Lemma string_compare_refl s : String.compare s s = Eq.
Proof.
  induction s as [| a s IH]; [reflexivity |]. cbn.
  replace (Ascii.compare a a) with Eq; [exact IH |].
  symmetry. unfold Ascii.compare. apply N.compare_refl.
Qed.

Lemma string_compare_lt_trans s1 s2 s3 :
  String.compare s1 s2 = Lt -> String.compare s2 s3 = Lt ->
  String.compare s1 s3 = Lt.
Proof.
  revert s2 s3. induction s1 as [| a s1 IH]; intros [| b s2] [| c s3]; cbn;
    try (intros; congruence).
  destruct (Ascii.compare a b) eqn:Hab; try discriminate;
    destruct (Ascii.compare b c) eqn:Hbc; try discriminate; intros H1 H2.
  - rewrite (ascii_compare_trans _ _ _ _ Hab Hbc). eauto.
  - apply Ascii.compare_eq_iff in Hab. subst b. now rewrite Hbc.
  - apply Ascii.compare_eq_iff in Hbc. subst c. now rewrite Hab.
  - now rewrite (ascii_compare_trans _ _ _ _ Hab Hbc).
Qed.

Lemma string_leb_trans s1 s2 s3 :
  String.leb s1 s2 = true -> String.leb s2 s3 = true -> String.leb s1 s3 = true.
Proof.
  unfold String.leb. intros H1 H2.
  destruct (String.compare s1 s2) eqn:E1; try discriminate;
    destruct (String.compare s2 s3) eqn:E2; try discriminate.
  - apply String.compare_eq_iff in E1, E2. subst. now rewrite string_compare_refl.
  - apply String.compare_eq_iff in E1. subst. now rewrite E2.
  - apply String.compare_eq_iff in E2. subst. now rewrite E1.
  - now rewrite (string_compare_lt_trans _ _ _ E1 E2).
Qed.

(** The boolean comparison of the keys is the order [precedes]. *)
Lemma key_leb_precedes x y : key_leb x y = true <-> precedes x y.
Proof.
  unfold key_leb, precedes, sort_key, key_compare, String.leb.
  destruct (Z.compare_spec (- TokenDef.priority x) (- TokenDef.priority y));
    [| split; [lia | reflexivity] | split; [discriminate | lia]].
  destruct (Z.compare_spec (- Pattern.max_width (TokenDef.pattern x))
                           (- Pattern.max_width (TokenDef.pattern y)));
    [| split; [lia | reflexivity] | split; [discriminate | lia]].
  destruct (Z.compare_spec
              (- Z.of_nat (String.length (Pattern.value (TokenDef.pattern x))))
              (- Z.of_nat (String.length (Pattern.value (TokenDef.pattern y)))));
    [| split; [lia | reflexivity] | split; [discriminate | lia]].
  destruct (String.compare (TokenDef.name x) (TokenDef.name y));
    split; try discriminate; try reflexivity; intros; try lia;
    right; (split; [lia |]); right; (split; [lia |]); right; (split; [lia |]); reflexivity.
Qed.

(** One level of a lexicographic order on integers, larger first. *)
Lemma level_total (a b : Z) (P Q : Prop) :
  P \/ Q -> ((b < a)%Z \/ a = b /\ P) \/ ((a < b)%Z \/ b = a /\ Q).
Proof. destruct (Z.lt_trichotomy a b) as [H | [H | H]]; intuition lia. Qed.

Lemma level_trans (a b c : Z) (P Q R : Prop) :
  (P -> Q -> R) ->
  (b < a)%Z \/ a = b /\ P -> (c < b)%Z \/ b = c /\ Q -> (c < a)%Z \/ a = c /\ R.
Proof. intros HR [H1 | [H1 HP]] [H2 | [H2 HQ]]; try (left; lia). right. split; [lia | auto]. Qed.

Lemma precedes_total x y : precedes x y \/ precedes y x.
Proof.
  unfold precedes. do 3 apply level_total. apply String.leb_total.
Qed.

Lemma precedes_trans x y z : precedes x y -> precedes y z -> precedes x z.
Proof.
  unfold precedes. do 3 apply level_trans. apply string_leb_trans.
Qed.

Lemma sort_insert_perm x l : Permutation (x :: l) (sort_insert x l).
Proof.
  induction l as [| y l IH]; cbn; [reflexivity |].
  destruct (key_leb x y); [reflexivity |].
  rewrite perm_swap. now constructor.
Qed.

Lemma sort_tokens_perm l : Permutation l (sort_tokens l).
Proof.
  induction l as [| x l IH]; cbn; [constructor |].
  rewrite <- sort_insert_perm. now constructor.
Qed.

Lemma sort_insert_sorted x l :
  StronglySorted precedes l -> StronglySorted precedes (sort_insert x l).
Proof.
  induction 1 as [| y l Hl IH Hy]; cbn.
  - repeat constructor.
  - destruct (key_leb x y) eqn:Hxy.
    + apply key_leb_precedes in Hxy. constructor; [now constructor |].
      constructor; [exact Hxy |].
      eapply Forall_impl; [exact Hy |]. intros z. now apply precedes_trans.
    + assert (Hyx : precedes y x).
      { destruct (precedes_total x y) as [H | H]; [| exact H].
        apply key_leb_precedes in H. congruence. }
      constructor; [exact IH |].
      rewrite <- sort_insert_perm. now constructor.
Qed.

Lemma sort_tokens_sorted l : StronglySorted precedes (sort_tokens l).
Proof.
  induction l as [| x l IH]; cbn; [constructor | now apply sort_insert_sorted].
Qed.

(** Equal keys: the comparison says so. *)
Lemma key_leb_same_key x y :
  sort_key x = sort_key y -> key_leb x y = true.
Proof.
  intros H. apply key_leb_precedes. unfold precedes, sort_key in *.
  injection H as Hp Hw Hl Hn. rewrite Hn.
  unfold String.leb. rewrite string_compare_refl. lia.
Qed.

Lemma with_key_insert k x l :
  StronglySorted precedes l ->
  with_key k (sort_insert x l) = with_key k (x :: l).
Proof.
  induction 1 as [| y l Hl IH Hy]; [reflexivity |].
  cbn [sort_insert]. destruct (key_leb x y) eqn:Hxy; [reflexivity |].
  unfold with_key in *. cbn [List.filter] in *. rewrite IH.
  destruct (bool_decide_reflect (sort_key y = k)) as [Hyk | Hyk];
    destruct (bool_decide_reflect (sort_key x = k)) as [Hxk | Hxk]; try reflexivity.
  rewrite key_leb_same_key in Hxy by congruence. discriminate.
Qed.

Lemma sort_tokens_stable k l : with_key k (sort_tokens l) = with_key k l.
Proof.
  induction l as [| x l IH]; [reflexivity |].
  cbn [sort_tokens foldr]. rewrite with_key_insert by apply sort_tokens_sorted.
  fold (sort_tokens l). unfold with_key in *. cbn [List.filter]. now rewrite IH.
Qed.

(** ** Facts about the embedding, for any engine *)

Lemma bind_Ret {A B : Type} (m : outcome A) (k : A -> outcome B) (b : B) :
  m ≫= k = Ret b -> exists a, m = Ret a /\ k a = Ret b.
Proof. destruct m as [a | e |]; cbn; intros H; try discriminate. eauto. Qed.

Lemma StronglySorted_filter {A : Type} (R : A -> A -> Prop) (f : A -> bool) l :
  StronglySorted R l -> StronglySorted R (List.filter f l).
Proof.
  induction 1 as [| x l Hl IH Hx]; cbn; [constructor |].
  destruct (f x); [| exact IH]. constructor; [exact IH |].
  apply Forall_forall. intros y Hy. apply list_elem_of_In, filter_In in Hy.
  rewrite Forall_forall in Hx. apply Hx, list_elem_of_In. tauto.
Qed.

Lemma StronglySorted_drop {A : Type} (R : A -> A -> Prop) n l :
  StronglySorted R l -> StronglySorted R (drop n l).
Proof.
  intros H. revert n. induction H as [| x l Hl IH Hx]; intros [| n]; cbn;
    try constructor; auto.
Qed.

(** A suffix of a mapped list is the mapped suffix of the same length. *)
Lemma suffix_map_drop {A B : Type} (f : A -> B) (l : list A) (l' : list B) :
  l' `suffix_of` map f l -> l' = map f (drop (length l - length l') l).
Proof.
  intros [k Hk].
  assert (Hlen : length l = length k + length l').
  { rewrite <- (length_map f l), Hk. apply length_app. }
  replace (length l - length l') with (length k) by lia.
  rewrite <- (drop_app_length k l'), <- Hk. apply skipn_map.
Qed.

Section Facts.
Context {E : Engine}.

(** *** Matching against a list of matchers *)

Lemma mres_match_concat mres s pos :
  mres_match mres s pos = mre_match (alternatives_of mres) s pos.
Proof.
  unfold alternatives_of.
  induction mres as [| mre mres IH]; cbn; [reflexivity |]. rewrite IH. clear IH.
  induction mre as [| [n p] mre IH]; cbn; [reflexivity |].
  destruct (re_match p s pos); [reflexivity | exact IH].
Qed.


Lemma mre_match_Some (mre : CompiledMatcher) s pos v n :
  mre_match mre s pos = Some (v, n) ->
  exists i p, mre !! i = Some (n, p) /\ re_match p s pos = Some v
    /\ forall j n' p', j < i -> mre !! j = Some (n', p') -> re_match p' s pos = None.
Proof.
  induction mre as [| [n0 p0] mre IH]; cbn; [discriminate |].
  destruct (re_match p0 s pos) as [v0 |] eqn:H0.
  - intros [= -> ->]. exists 0, p0. repeat split; auto. intros; lia.
  - intros H. destruct (IH H) as (i & p & Hi & Hv & Hbefore).
    exists (S i), p. repeat split; auto.
    intros [| j] n' p' Hj; cbn; [now intros [= -> ->] |].
    apply Hbefore. lia.
Qed.


(** *** [_build_mres] *)

Lemma alternatives_app pf l1 l2 :
  alternatives pf (l1 ++ l2) = (alternatives pf l1 ++ alternatives pf l2)%list.
Proof. apply map_app. Qed.

(** Whatever the engine refuses, the matchers cover a suffix of the
    token list, in order. *)
Lemma _build_mres_suffix fuel : forall tokens max_size mw acc mres,
  _build_mres fuel tokens max_size mw acc = Ret mres ->
  alternatives_of mres
    `suffix_of` (alternatives_of acc ++ alternatives (postfix_of mw) tokens)%list.
Proof.
  unfold alternatives_of.
  induction fuel as [| fuel IH]; intros tokens max_size mw acc mres; cbn;
    [discriminate |].
  destruct tokens as [| t tokens].
  - intros [= ->]. cbn. now rewrite app_nil_r.
  - destruct (re_compile _); [| | discriminate]; intros H; apply IH in H.
    + rewrite concat_app in H. cbn in H. rewrite app_nil_r in H.
      rewrite <- app_assoc, <- alternatives_app, take_drop in H. exact H.
    + cbn in H. etransitivity; [exact H |]. apply suffix_app_r. reflexivity.
Qed.

Lemma build_mres_suffix fuel tokens mw mres :
  build_mres fuel tokens mw = Ret mres ->
  alternatives_of mres `suffix_of` alternatives (postfix_of mw) tokens.
Proof. intros H. apply _build_mres_suffix in H. exact H. Qed.


Lemma build_mres_single_ok fuel tokens mw :
  re_compile (joined (postfix_of mw) tokens) = Compiled ->
  build_mres (S (S fuel)) tokens mw
  = Ret (match tokens with [] => [] | _ => [alternatives (postfix_of mw) tokens] end).
Proof.
  intros Hc. unfold build_mres. cbn.
  destruct tokens as [| t tokens]; [reflexivity |].
  now rewrite firstn_all, Hc, skipn_all.
Qed.

Lemma build_mres_nil fuel mw : build_mres (S fuel) [] mw = Ret [].
Proof. reflexivity. Qed.

End Facts.

Section InitFacts.
Context {E : Engine}.

Lemma filter_sublist {A : Type} (f : A -> bool) (l : list A) :
  List.filter f l `sublist_of` l.
Proof.
  induction l as [| x l IH]; cbn; [constructor |].
  destruct (f x); now constructor.
Qed.

(** What [Lexer.__init__] has done when it returns. *)
Lemma Lexer__init___inv fuel tokens ignore L :
  Lexer__init__ fuel tokens ignore = Ret L ->
  sanitize tokens = Ret ()
  /\ Lexer.ignore_types L = ignore
  /\ Lexer.newline_types L = newline_types_of tokens
  /\ _create_unless fuel (sort_tokens tokens) = Ret (Lexer.tokens L, Lexer.callback L)
  /\ build_mres fuel (Lexer.tokens L) false = Ret (Lexer.mres L).
Proof.
  unfold Lexer__init__. intros H.
  apply bind_Ret in H as ([] & Hs & H).
  destruct (negb _); [discriminate |].
  apply bind_Ret in H as ([tokens' callback] & Hu & H).
  apply bind_Ret in H as (mres & Hm & H).
  injection H as <-. cbn. auto.
Qed.

Lemma _create_unless_inv fuel tokens tokens' callback :
  _create_unless fuel tokens = Ret (tokens', callback) ->
  exists embedded_strs,
    _create_unless_loop fuel (tokens_by_type tokens PatternRE)
      (tokens_by_type tokens PatternStr) [] ∅ = Ret (embedded_strs, callback)
    /\ tokens' = List.filter (fun t => negb (bool_decide (t ∈ embedded_strs))) tokens.
Proof.
  unfold _create_unless. intros H.
  apply bind_Ret in H as ([emb cb] & Hl & H). injection H as <- <-. eauto.
Qed.

(** The matchers are compiled from [matcher_tokens]. *)
Lemma matcher_tokens_alternatives fuel tokens ignore L :
  Lexer__init__ fuel tokens ignore = Ret L ->
  alternatives_of (Lexer.mres L) = alternatives "" (matcher_tokens L).
Proof.
  intros H. apply Lexer__init___inv in H as (_ & _ & _ & _ & Hm).
  apply build_mres_suffix in Hm. apply suffix_map_drop in Hm.
  unfold matcher_tokens. exact Hm.
Qed.

Lemma Lexer_tokens_sorted fuel tokens ignore L :
  Lexer__init__ fuel tokens ignore = Ret L ->
  Lexer.tokens L `sublist_of` sort_tokens tokens
  /\ StronglySorted precedes (Lexer.tokens L)
  /\ StronglySorted precedes (matcher_tokens L).
Proof.
  intros H. apply Lexer__init___inv in H as (_ & _ & _ & Hu & _).
  apply _create_unless_inv in Hu as (emb & _ & Heq).
  unfold matcher_tokens. rewrite Heq.
  split; [apply filter_sublist |].
  assert (Hs : StronglySorted precedes
                 (List.filter (fun t => negb (bool_decide (t ∈ emb)))
                    (sort_tokens tokens)))
    by apply StronglySorted_filter, sort_tokens_sorted.
  split; [exact Hs |]. now apply StronglySorted_drop.
Qed.

End InitFacts.

(** ** The order computed at construction *)

(** C4 (as stated) fails: two regex tokens of equal priority and equal
    maximum width are ordered by the length of their sources, not by
    name. *)
Lemma stated_order_counterexample : ~ stated_order_holds [RA; RB].
Proof.
  unfold stated_order_holds.
  change (sort_tokens [RA; RB]) with [RB; RA].
  intros H. apply StronglySorted_inv in H as [_ H]. apply Forall_inv in H.
  unfold stated_precedes in H. cbn in H.
  destruct H as [H | [_ [H | [_ H]]]]; [lia | lia | discriminate].
Qed.

(** C4 (amended).  [tokens.sort] rearranges the tokens (it loses and adds
    none) into the order [precedes]: higher priority first; then wider
    maximum width; then longer [pattern.value], for literal and regex
    tokens alike; then name; tokens with the same key keep their input
    order.  The list a constructed [Lexer] keeps is a sublist of it in
    the same order. *)
Theorem Lexer_token_order {E : Engine} (tokens : list TokenDef.t) :
  Permutation tokens (sort_tokens tokens)
  /\ StronglySorted precedes (sort_tokens tokens)
  /\ (forall k, with_key k (sort_tokens tokens) = with_key k tokens)
  /\ (forall fuel ignore L,
        Lexer__init__ fuel tokens ignore = Ret L ->
        Lexer.tokens L `sublist_of` sort_tokens tokens
        /\ StronglySorted precedes (Lexer.tokens L)).
Proof.
  split; [apply sort_tokens_perm |].
  split; [apply sort_tokens_sorted |].
  split; [intros k; apply sort_tokens_stable |].
  intros fuel ignore L H.
  destruct (Lexer_tokens_sorted _ _ _ _ H) as (H1 & H2 & _). auto.
Qed.

(** The order on [RA] and [RB], through the theorem. *)
Lemma Lexer_token_order_witness :
  exists L, Lexer__init__ 10 [RA; RB] [] = Ret L
            /\ Lexer.tokens L = [RB; RA]
            /\ StronglySorted precedes (Lexer.tokens L).
Proof.
  eexists. split; [vm_compute; reflexivity |].
  split; [vm_compute; reflexivity |].
  destruct (Lexer_token_order (E := PyRe_engine) [RA; RB]) as (_ & _ & _ & H).
  refine (proj2 (H 10 [] _ _)). vm_compute; reflexivity.
Defined.

(** ** The matcher compiler *)

Section BuildFacts.
Context {E : Engine}.

(** More fuel does not change a result. *)
Lemma _build_mres_more_fuel fuel : forall tokens max_size mw acc mres,
  _build_mres fuel tokens max_size mw acc = Ret mres ->
  _build_mres (S fuel) tokens max_size mw acc = Ret mres.
Proof.
  induction fuel as [| fuel IH]; intros tokens max_size mw acc mres;
    [discriminate |].
  intros H. cbn in H |- *.
  destruct tokens as [| t tokens]; [exact H |].
  destruct (re_compile _); [| | discriminate]; apply IH in H; exact H.
Qed.

Lemma build_mres_fuel_add k fuel tokens mw mres :
  build_mres fuel tokens mw = Ret mres ->
  build_mres (k + fuel) tokens mw = Ret mres.
Proof.
  unfold build_mres. intros H. induction k as [| k IH]; [exact H |].
  now apply _build_mres_more_fuel.
Qed.

(** With a batch size of 0 the batch is empty, it compiles, and the
    token list never gets shorter. *)
Lemma _build_mres_zero fuel : forall tokens mw acc,
  re_compile "" = Compiled ->
  tokens <> [] ->
  _build_mres fuel tokens 0 mw acc = Diverge.
Proof.
  induction fuel as [| fuel IH]; intros tokens mw acc Hempty Hne; [reflexivity |].
  cbn. destruct tokens as [| t tokens]; [congruence |].
  cbn. rewrite Hempty. now apply IH.
Qed.

(** A token whose named group alone is refused: the batch size goes
    from 1 to 0, and the compiler never returns. *)
Lemma build_mres_single_refused fuel t mw :
  re_compile "" = Compiled ->
  re_compile (joined (postfix_of mw) [t]) = TooManyGroups ->
  build_mres fuel [t] mw = Diverge.
Proof.
  intros Hempty Href. unfold build_mres.
  destruct fuel as [| fuel]; [reflexivity |].
  cbn [_build_mres length take]. rewrite Href.
  now apply _build_mres_zero.
Qed.

End BuildFacts.

(** *** When every token counts for one group

    If the engine refuses exactly the batches of more than [c] tokens
    among the runs of consecutive tokens of the list (no token pattern
    has groups of its own), a refusal can only come before the first
    batch has compiled: nothing is lost, and the compiler returns. *)

Section UniformCeiling.
Context {E : Engine}.
Variables (c : nat) (mw : bool) (tokens : list TokenDef.t).
Hypothesis c_pos : 1 <= c.
Hypothesis ceiling : forall i n,
  re_compile (joined (postfix_of mw) (take n (drop i tokens)))
  = if (length (take n (drop i tokens)) <=? c)%nat then Compiled else TooManyGroups.

Lemma _build_mres_fits fuel : forall i max_size acc,
  1 <= max_size ->
  Nat.min max_size (length (drop i tokens)) <= c ->
  length (drop i tokens) < fuel ->
  Forall (fun mre : CompiledMatcher => 1 <= length mre <= c) acc ->
  exists mres,
    _build_mres fuel (drop i tokens) max_size mw acc = Ret mres
    /\ alternatives_of mres
       = (alternatives_of acc ++ alternatives (postfix_of mw) (drop i tokens))%list
    /\ Forall (fun mre : CompiledMatcher => 1 <= length mre <= c) mres.
Proof.
  unfold alternatives_of.
  induction fuel as [| fuel IH]; intros i max_size acc Hm Hmin Hfuel Hacc;
    [lia |].
  destruct (drop i tokens) as [| t rest] eqn:Hd.
  - exists acc. cbn. now rewrite app_nil_r.
  - cbn [_build_mres]. rewrite <- Hd, ceiling, length_take.
    assert (Hlen : length (drop i tokens) = S (length rest)) by now rewrite Hd.
    rewrite <- Hd in Hmin, Hfuel.
    destruct (Nat.leb_spec (Nat.min max_size (length (drop i tokens))) c); [| lia].
    rewrite drop_drop.
    destruct (IH (i + max_size) max_size
                (acc ++ [alternatives (postfix_of mw) (take max_size (drop i tokens))])%list)
      as (mres & Hr & Hcat & Hall).
    + exact Hm.
    + rewrite <- drop_drop, length_drop. lia.
    + rewrite <- drop_drop, length_drop. lia.
    + apply Forall_app. split; [exact Hacc |].
      constructor; [| constructor].
      unfold alternatives. rewrite length_map, length_take. lia.
    + exists mres. split; [exact Hr |]. split; [| exact Hall].
      rewrite Hcat, concat_app. cbn [concat]. rewrite app_nil_r, <- app_assoc.
      now rewrite <- alternatives_app, <- drop_drop, take_drop.
Qed.

Lemma _build_mres_halves max_size : forall fuel i,
  1 <= max_size ->
  max_size + length (drop i tokens) < fuel ->
  exists mres,
    _build_mres fuel (drop i tokens) max_size mw [] = Ret mres
    /\ alternatives_of mres = alternatives (postfix_of mw) (drop i tokens)
    /\ Forall (fun mre : CompiledMatcher => 1 <= length mre <= c) mres.
Proof.
  induction max_size as [max_size IH] using lt_wf_ind. intros fuel i Hm Hfuel.
  destruct (Nat.le_gt_cases (Nat.min max_size (length (drop i tokens))) c)
    as [Hfit | Hbig].
  - apply _build_mres_fits; auto with lia.
  - destruct fuel as [| fuel]; [lia |].
    destruct (drop i tokens) as [| t rest] eqn:Hd; [cbn in Hbig; lia |].
    cbn [_build_mres]. rewrite <- Hd, ceiling, length_take.
    rewrite <- Hd in Hbig, Hfuel.
    destruct (Nat.leb_spec (Nat.min max_size (length (drop i tokens))) c); [lia |].
    assert (Hhalf : 1 <= max_size / 2 < max_size).
    { split; [apply Nat.div_le_lower_bound; lia | apply Nat.div_lt; lia]. }
    apply IH; lia.
Qed.

(** The matchers hold every token, in order, and none holds more than
    [c]; matching against them is matching against the single
    disjunction of all tokens. *)
Lemma build_mres_uniform fuel :
  2 * length tokens < fuel ->
  exists mres,
    build_mres fuel tokens mw = Ret mres
    /\ alternatives_of mres = alternatives (postfix_of mw) tokens
    /\ Forall (fun mre : CompiledMatcher => 1 <= length mre <= c) mres
    /\ forall s pos,
         mres_match mres s pos
         = mre_match (alternatives (postfix_of mw) tokens) s pos.
Proof.
  intros Hfuel. unfold build_mres.
  destruct (length tokens) as [| len] eqn:Hlen.
  - apply length_zero_iff_nil in Hlen. rewrite Hlen.
    destruct fuel as [| fuel']; [lia |].
    exists []. repeat split; auto.
  - rewrite <- Hlen in Hfuel.
    destruct (_build_mres_halves (length tokens) fuel 0)
      as (mres & Hr & Hcat & Hall); [lia | rewrite drop_0; lia |].
    rewrite drop_0 in Hr, Hcat. rewrite <- Hlen.
    exists mres. repeat split; auto.
    intros s pos. now rewrite mres_match_concat, Hcat.
Qed.

End UniformCeiling.

(** C9 (fails on the code).  [BIG] passes the sanitization of
    [Lexer.__init__], its named group alone exceeds the ceiling, and
    neither [build_mres] nor [Lexer.__init__] returns on it, whatever
    the fuel: the halving goes from a batch size of 1 to 0. *)
Theorem build_mres_does_not_terminate :
  sanitize [BIG] = Ret ()
  /\ re_compile (joined "" [BIG]) = TooManyGroups
  /\ (forall fuel, build_mres fuel [BIG] false = Diverge)
  /\ (forall fuel, Lexer__init__ fuel [BIG] [] = Diverge).
Proof.
  assert (Hs : sanitize [BIG] = Ret ()) by (vm_compute; reflexivity).
  assert (Hr : re_compile (joined (postfix_of false) [BIG]) = TooManyGroups)
    by (vm_compute; reflexivity).
  assert (Hb : forall fuel, build_mres fuel [BIG] false = Diverge).
  { intros fuel. apply build_mres_single_refused; [| exact Hr].
    vm_compute; reflexivity. }
  repeat split; auto.
  intros fuel. unfold Lexer__init__. rewrite Hs.
  assert (Hu : _create_unless fuel (sort_tokens [BIG]) = Ret ([BIG], ∅))
    by (vm_compute; reflexivity).
  cbn [mbind outcome_bind negb forallb]. rewrite Hu.
  cbn [mbind outcome_bind]. now rewrite Hb.
Qed.

(** C3 (fails on the code).  The four tokens [G1 G2 G3 G4] do not
    compile at once; with a batch size of 2 the first batch compiles and
    the second does not, and the matcher of the first batch is lost: the
    matchers hold [G3] and [G4] only.  The text [a], which the lexer of
    [G1 G2] alone tokenizes, is then a lexical error. *)
Theorem build_mres_loses_matchers :
  (forall fuel,
      build_mres (6 + fuel) [G1; G2; G3; G4] false
      = Ret [alternatives "" [G3]; alternatives "" [G4]])
  /\ alternatives_of [alternatives "" [G3]; alternatives "" [G4]]
     <> alternatives "" [G1; G2; G3; G4]
  /\ (exists L,
        Lexer__init__ 10 [G1; G2; G3; G4] [] = Ret L
        /\ Lexer.tokens L = [G1; G2; G3; G4]
        /\ Lexer.mres L = [alternatives "" [G3]; alternatives "" [G4]]
        /\ Lexer_lex 10 L "a"
           = ([], LexicalError (UnexpectedInput.mk "a" 1 0 "a" None)))
  /\ (exists L,
        Lexer__init__ 10 [G1; G2] [] = Ret L
        /\ Lexer.mres L = [alternatives "" [G1; G2]]
        /\ Lexer_lex 10 L "a" = ([Token.mk "A" "a" 0 1 0], Done)).
Proof.
  split.
  { intros fuel. rewrite Nat.add_comm. apply build_mres_fuel_add.
    vm_compute; reflexivity. }
  split; [discriminate |].
  split; eexists; (split; [vm_compute; reflexivity |]);
    repeat split; vm_compute; reflexivity.
Qed.

(** ** Newline-bearing token types *)

(** C5 (fails on the code).  The expression [\s+] matches a newline,
    [_regexp_has_newline] does not see it, and the token is left out of
    [newline_types]: the newline it consumes is not counted, and the
    token after it is reported on line 1. *)
Theorem newline_types_misses_whitespace :
  re_match "\s+" (String Str.newline "") 0 = Some (String Str.newline "")
  /\ _regexp_has_newline "\s+" = false
  /\ exists L,
       Lexer__init__ 10 [IDENT; WHITESPACE] ["WHITESPACE"] = Ret L
       /\ Lexer.newline_types L = []
       /\ Lexer_lex 10 L ("a" ++ String Str.newline "bb")
          = ([Token.mk "IDENT" "a" 0 1 0; Token.mk "IDENT" "bb" 2 1 2], Done).
Proof.
  split; [vm_compute; reflexivity |].
  split; [vm_compute; reflexivity |].
  eexists. split; [vm_compute; reflexivity |].
  split; vm_compute; reflexivity.
Qed.

(** ** The streaming loop *)

Section LexFacts.
Context {E : Engine}.
Variables (L : Lexer.t) (stream : string) (nl ig : list string).

Lemma _Lex_pass_match lc v ty :
  mres_match (Lexer.mres L) stream (LineCounter.char_pos lc) = Some (v, ty) ->
  _Lex_pass (_Lex.mk L) stream nl ig lc
  = if str_in ty ig
    then Continue (LineCounter.feed lc v (str_in ty nl))
    else Emit (apply_callback L
                 (Token.mk ty v (LineCounter.char_pos lc) (LineCounter.line lc)
                    (LineCounter.column lc)))
              (LexSuspended lc v ty).
Proof. unfold _Lex_pass. cbn. intros ->. now destruct (str_in ty ig). Qed.

Lemma _Lex_pass_no_match lc :
  mres_match (Lexer.mres L) stream (LineCounter.char_pos lc) = None ->
  _Lex_pass (_Lex.mk L) stream nl ig lc
  = if (LineCounter.char_pos lc <? String.length stream)%nat
    then RaiseUnexpected (error_at stream lc) else Break.
Proof. unfold _Lex_pass. cbn. now intros ->. Qed.

(** A pass raises exactly when the session is stuck, and the error is
    the one of the current line counter. *)
Lemma _Lex_pass_error_iff lc e :
  _Lex_pass (_Lex.mk L) stream nl ig lc = RaiseUnexpected e
  <-> stuck L stream lc /\ e = error_at stream lc.
Proof.
  unfold stuck.
  destruct (mres_match (Lexer.mres L) stream (LineCounter.char_pos lc))
    as [[v ty] |] eqn:Hm.
  - rewrite (_Lex_pass_match _ _ _ Hm).
    split; [destruct (str_in ty ig); discriminate | intros [[? _] _]; discriminate].
  - rewrite (_Lex_pass_no_match _ Hm).
    destruct (Nat.ltb_spec (LineCounter.char_pos lc) (String.length stream)).
    + split; [intros [= <-]; auto | intros [_ ->]; reflexivity].
    + split; [discriminate | intros [[_ ?] _]; lia].
Qed.

Lemma advance_n_add j k lc lc1 :
  advance_n j L stream nl lc = Some lc1 ->
  advance_n (j + k) L stream nl lc = advance_n k L stream nl lc1.
Proof.
  revert lc. induction j as [| j IH]; intros lc; cbn; [now intros [= ->] |].
  destruct (advance L stream nl lc); [apply IH | discriminate].
Qed.

(** What the loop has gone through when it stops. *)
Lemma _Lex_loop_sound fuel : forall lc,
  match _Lex_loop fuel (_Lex.mk L) stream nl ig lc with
  | Unexpected e =>
      exists k lc', advance_n k L stream nl lc = Some lc'
        /\ stuck L stream lc' /\ e = error_at stream lc'
  | Yielded t g =>
      exists k lc' v ty, advance_n k L stream nl lc = Some lc'
        /\ g = LexSuspended lc' v ty
        /\ mres_match (Lexer.mres L) stream (LineCounter.char_pos lc') = Some (v, ty)
        /\ str_in ty ig = false
        /\ t = apply_callback L
                 (Token.mk ty v (LineCounter.char_pos lc') (LineCounter.line lc')
                    (LineCounter.column lc'))
  | StopIteration =>
      exists k lc', advance_n k L stream nl lc = Some lc'
        /\ mres_match (Lexer.mres L) stream (LineCounter.char_pos lc') = None
        /\ String.length stream <= LineCounter.char_pos lc'
  | Failed _ => False
  | Running => True
  end.
Proof.
  induction fuel as [| fuel IH]; intros lc; cbn; [exact I |].
  destruct (mres_match (Lexer.mres L) stream (LineCounter.char_pos lc))
    as [[v ty] |] eqn:Hm.
  - rewrite (_Lex_pass_match _ _ _ Hm). destruct (str_in ty ig) eqn:Hig.
    + specialize (IH (LineCounter.feed lc v (str_in ty nl))).
      assert (Hadv : advance_n 1 L stream nl lc
                     = Some (LineCounter.feed lc v (str_in ty nl)))
        by (cbn; unfold advance; now rewrite Hm).
      destruct (_Lex_loop fuel _ stream nl ig _) as [t g | | e | e |]; auto.
      * destruct IH as (k & lc' & v' & ty' & Hk & H).
        exists (1 + k), lc', v', ty'. split; [| exact H].
        now rewrite (advance_n_add _ _ _ _ Hadv).
      * destruct IH as (k & lc' & Hk & H).
        exists (1 + k), lc'. split; [| exact H].
        now rewrite (advance_n_add _ _ _ _ Hadv).
      * destruct IH as (k & lc' & Hk & H).
        exists (1 + k), lc'. split; [| exact H].
        now rewrite (advance_n_add _ _ _ _ Hadv).
    + exists 0, lc, v, ty. auto.
  - rewrite (_Lex_pass_no_match _ Hm).
    destruct (Nat.ltb_spec (LineCounter.char_pos lc) (String.length stream)).
    + exists 0, lc. unfold stuck. auto.
    + exists 0, lc. auto.
Qed.

(** If the session gets stuck after [k] matches, a loop with more fuel
    than that raises there, or yields a token on the way. *)
Lemma _Lex_loop_complete k : forall fuel lc lc',
  advance_n k L stream nl lc = Some lc' ->
  stuck L stream lc' ->
  k < fuel ->
  _Lex_loop fuel (_Lex.mk L) stream nl ig lc = Unexpected (error_at stream lc')
  \/ exists t g k', k' < k
       /\ _Lex_loop fuel (_Lex.mk L) stream nl ig lc = Yielded t g
       /\ advance_n k' L stream nl (resume_ctr nl g) = Some lc'.
Proof.
  induction k as [| k IH]; intros fuel lc lc' Hk Hstuck Hfuel;
    (destruct fuel as [| fuel]; [lia |]); cbn in Hk |- *.
  - injection Hk as ->. left.
    replace (_Lex_pass _ _ _ _ _) with (RaiseUnexpected (error_at stream lc'));
      [reflexivity |].
    symmetry. now apply _Lex_pass_error_iff.
  - unfold advance in Hk.
    destruct (mres_match (Lexer.mres L) stream (LineCounter.char_pos lc))
      as [[v ty] |] eqn:Hm; [| discriminate].
    rewrite (_Lex_pass_match _ _ _ Hm). destruct (str_in ty ig).
    + destruct (IH fuel _ _ Hk Hstuck) as [H | (t & g & k' & Hk' & H)];
        [lia | now left |].
      right. exists t, g, k'. split; [lia | exact H].
    + right. eexists _, _, k. split; [lia |]. split; [reflexivity | exact Hk].
Qed.

End LexFacts.

Section SessionFacts.
Context {E : Engine}.
Variables (L : Lexer.t) (stream : string).

Lemma Lexer_lex_next_loop fuel g :
  Lexer_lex_next fuel L stream g
  = _Lex_loop fuel (_Lex.mk L) stream (Lexer.newline_types L) (Lexer.ignore_types L)
      (resume_ctr (Lexer.newline_types L) g).
Proof. now destruct g. Qed.

Lemma Lexer_lex_from_sound n : forall fuel g ts e,
  Lexer_lex_from fuel n L stream g = (ts, LexicalError e) ->
  exists k lc,
    advance_n k L stream (Lexer.newline_types L)
      (resume_ctr (Lexer.newline_types L) g) = Some lc
    /\ stuck L stream lc /\ e = error_at stream lc.
Proof.
  induction n as [| n IH]; intros fuel g ts e; cbn; [discriminate |].
  rewrite Lexer_lex_next_loop.
  pose proof (_Lex_loop_sound L stream (Lexer.newline_types L) (Lexer.ignore_types L)
                fuel (resume_ctr (Lexer.newline_types L) g)) as Hs.
  destruct (_Lex_loop fuel _ stream _ _ _) as [t g' | | e' | e' |];
    try discriminate.
  - destruct (Lexer_lex_from fuel n L stream g') as [ts' e''] eqn:Hrec.
    intros [= <- ->]. apply IH in Hrec as (k' & lc' & Hk' & H).
    destruct Hs as (k & lc1 & v & ty & Hk & -> & Hm & _).
    exists (k + S k'), lc'. split; [| exact H].
    rewrite (advance_n_add _ _ _ _ _ _ _ Hk). cbn. unfold advance.
    rewrite Hm. exact Hk'.
  - intros [= <- <-]. exact Hs.
Qed.

Lemma Lexer_lex_from_complete n : forall k fuel g lc,
  advance_n k L stream (Lexer.newline_types L)
    (resume_ctr (Lexer.newline_types L) g) = Some lc ->
  stuck L stream lc ->
  k < fuel -> k < n ->
  (Lexer_lex_from fuel n L stream g).2 = LexicalError (error_at stream lc).
Proof.
  induction n as [| n IH]; intros k fuel g lc Hk Hstuck Hfuel Hn; [lia |].
  cbn. rewrite Lexer_lex_next_loop.
  destruct (_Lex_loop_complete L stream (Lexer.newline_types L)
              (Lexer.ignore_types L) k fuel _ _ Hk Hstuck Hfuel)
    as [-> | (t & g' & k' & Hk' & -> & Hadv)]; [reflexivity |].
  specialize (IH k' fuel g' lc Hadv Hstuck). 
  destruct (Lexer_lex_from fuel n L stream g') as [ts e]. cbn in *.
  apply IH; lia.
Qed.

End SessionFacts.

(** C6.  A pass of the streaming loop raises [UnexpectedInput] if and
    only if no matcher of the active lexer matches at the current offset
    and the offset is before the end of the buffer; the error carries
    the current line and column.  A session of [Lexer.lex] ends in that
    error if and only if it reaches such a line counter.  With an empty
    matcher list a non-empty input is an error at once and the empty
    input gives the empty sequence.  Tokenizing [1+2] with [IDENT] alone
    raises at offset 0, line 1, column 0. *)
Theorem lexical_error_iff :
  (forall (E : Engine) L stream nl ig lc e,
      _Lex_pass (_Lex.mk L) stream nl ig lc = RaiseUnexpected e
      <-> (mres_match (Lexer.mres L) stream (LineCounter.char_pos lc) = None
           /\ LineCounter.char_pos lc < String.length stream)
          /\ e = UnexpectedInput.mk
                   (substring (LineCounter.char_pos lc) 1 stream)
                   (LineCounter.line lc) (LineCounter.column lc)
                   (substring (LineCounter.char_pos lc) 5 stream) None)
  /\ (forall (E : Engine) L stream e,
        (exists fuel ts, Lexer_lex fuel L stream = (ts, LexicalError e))
        <-> exists k lc,
              advance_n k L stream (Lexer.newline_types L) LineCounter.__init__
              = Some lc
              /\ stuck L stream lc /\ e = error_at stream lc)
  /\ (forall (E : Engine) L stream fuel,
        Lexer.mres L = [] ->
        Lexer_lex (S fuel) L stream
        = ([], if String.eqb stream "" then Done
               else LexicalError
                      (UnexpectedInput.mk (substring 0 1 stream) 1 0
                         (substring 0 5 stream) None)))
  /\ (exists L,
        Lexer__init__ 10 [IDENT] [] = Ret L
        /\ Lexer_lex 10 L "1+2"
           = ([], LexicalError (UnexpectedInput.mk "1" 1 0 "1+2" None))
        /\ error_at "1+2" LineCounter.__init__
           = UnexpectedInput.mk "1" 1 0 "1+2" None).
Proof.
  split; [intros E L stream nl ig lc e; apply _Lex_pass_error_iff |].
  split.
  { intros E L stream e. split.
    - intros (fuel & ts & H). apply Lexer_lex_from_sound in H. exact H.
    - intros (k & lc & Hk & Hstuck & ->).
      exists (S k). unfold Lexer_lex.
      pose proof (Lexer_lex_from_complete L stream (S k) k (S k) LexStart lc
                    Hk Hstuck (Nat.lt_succ_diag_r k) (Nat.lt_succ_diag_r k)) as H.
      destruct (Lexer_lex_from (S k) (S k) L stream LexStart) as [ts e].
      exists ts. cbn in H. now rewrite H. }
  split.
  { intros E L stream fuel Hm. unfold Lexer_lex. cbn.
    unfold _Lex_pass. cbn. rewrite Hm. cbn.
    destruct stream as [| c stream]; reflexivity. }
  eexists. split; [vm_compute; reflexivity |].
  split; vm_compute; reflexivity.
Qed.

(** The lexer of the empty token list, through the theorem. *)
Lemma lexical_error_iff_witness :
  exists L,
    Lexer__init__ 10 [] [] = Ret L
    /\ Lexer.mres L = []
    /\ Lexer_lex 10 L "1+2"
       = ([], LexicalError (UnexpectedInput.mk "1" 1 0 "1+2" None))
    /\ Lexer_lex 10 L "" = ([], Done).
Proof.
  eexists. split; [vm_compute; reflexivity |].
  split; [vm_compute; reflexivity |].
  destruct lexical_error_iff as (_ & _ & H & _).
  split.
  - refine (H PyRe_engine _ "1+2" 9 _). vm_compute; reflexivity.
  - refine (H PyRe_engine _ "" 9 _). vm_compute; reflexivity.
Defined.

(** ** Progress and termination *)

Lemma string_length_app (s1 s2 : string) :
  String.length (s1 ++ s2) = String.length s1 + String.length s2.
Proof.
  induction s1 as [| c s1 IH]; [reflexivity |].
  change (S (String.length (s1 ++ s2)) = S (String.length s1 + String.length s2)).
  now rewrite IH.
Qed.

Lemma string_app_nil_r (s : string) : s ++ "" = s.
Proof.
  induction s as [| c s IH]; [reflexivity |].
  change (String c (s ++ "") = String c s). now rewrite IH.
Qed.

Lemma Str_from_length pos s :
  String.length (Str.from pos s) = String.length s - pos.
Proof.
  revert s. induction pos as [| pos IH]; intros [| c s]; cbn; auto.
Qed.

Lemma feed_char_pos lc v b :
  LineCounter.char_pos (LineCounter.feed lc v b)
  = LineCounter.char_pos lc + String.length v.
Proof. reflexivity. Qed.

Section Progress.
Context {E : Engine} (laws : EngineLaws E).

Lemma unless_callback_value mres t :
  Token.value (unless_callback mres t) = Token.value t.
Proof.
  unfold unless_callback. now destruct (mres_match mres (Token.value t) 0) as [[v ty] |].
Qed.

Lemma apply_callback_value lexer t :
  Token.value (apply_callback lexer t) = Token.value t.
Proof.
  unfold apply_callback.
  destruct (Lexer.callback lexer !! Token.type t); [apply unless_callback_value | reflexivity].
Qed.

(** The sanitization loop has checked every token. *)
Lemma sanitize_ok tokens t :
  sanitize tokens = Ret () -> t ∈ tokens ->
  re_compile (Pattern.to_regexp (TokenDef.pattern t)) = Compiled
  /\ Pattern.min_width (TokenDef.pattern t) <> 0%Z.
Proof.
  induction tokens as [| t0 tokens IH]; cbn; intros Hs Hin; [inversion Hin |].
  destruct (re_compile (Pattern.to_regexp (TokenDef.pattern t0))) eqn:Hc;
    try discriminate.
  destruct (Z.eqb_spec (Pattern.min_width (TokenDef.pattern t0)) 0);
    [discriminate |].
  apply elem_of_cons in Hin as [-> | Hin]; auto.
Qed.

(** Every alternative of a constructed lexer is the expression of one
    of the tokens it was given. *)
Lemma alternative_of_token fuel tokens ignore L n p :
  Lexer__init__ fuel tokens ignore = Ret L ->
  (n, p) ∈ alternatives_of (Lexer.mres L) ->
  exists t, t ∈ tokens /\ n = TokenDef.name t
            /\ p = Pattern.to_regexp (TokenDef.pattern t).
Proof.
  intros HL Hin.
  rewrite (matcher_tokens_alternatives _ _ _ _ HL) in Hin.
  apply list_elem_of_In, in_map_iff in Hin as (t & [= <- <-] & Ht).
  exists t. rewrite string_app_nil_r. repeat split.
  destruct (Lexer_tokens_sorted _ _ _ _ HL) as (Hsub & _ & _).
  apply list_elem_of_In in Ht.
  rewrite (sort_tokens_perm tokens).
  eapply elem_of_sublist; [| exact Hsub].
  eapply elem_of_sublist; [exact Ht | apply sublist_drop].
Qed.

Variables (L : Lexer.t) (stream : string) (nl ig : list string).
Hypothesis nonempty : forall n p, (n, p) ∈ alternatives_of (Lexer.mres L) ->
  forall s pos, re_match p s pos <> Some "".

(** A match is not empty and lies within the buffer. *)
Lemma match_bounds pos v ty :
  mres_match (Lexer.mres L) stream pos = Some (v, ty) ->
  1 <= String.length v /\ pos + String.length v <= String.length stream.
Proof.
  rewrite mres_match_concat. intros H.
  apply mre_match_Some in H as (i & p & Hi & Hv & _).
  assert (Hlen : 1 <= String.length v).
  { destruct v; cbn; [| lia]. exfalso.
    eapply nonempty; [| exact Hv]. eapply list_elem_of_lookup_2. exact Hi. }
  split; [exact Hlen |].
  destruct (re_match_slice E laws _ _ _ _ Hv) as [rest Hrest].
  apply (f_equal String.length) in Hrest.
  rewrite Str_from_length, string_length_app in Hrest. lia.
Qed.

Lemma advance_bounds lc lc' :
  advance L stream nl lc = Some lc' ->
  LineCounter.char_pos lc < LineCounter.char_pos lc'
  /\ LineCounter.char_pos lc' <= String.length stream.
Proof.
  unfold advance.
  destruct (mres_match _ _ _) as [[v ty] |] eqn:Hm; [| discriminate].
  intros [= <-]. rewrite feed_char_pos. apply match_bounds in Hm. lia.
Qed.

Lemma advance_n_bounds k : forall lc lc',
  advance_n k L stream nl lc = Some lc' ->
  LineCounter.char_pos lc <= String.length stream ->
  LineCounter.char_pos lc <= LineCounter.char_pos lc'
  /\ LineCounter.char_pos lc' <= String.length stream.
Proof.
  induction k as [| k IH]; intros lc lc'; cbn; [intros [= ->]; lia |].
  destruct (advance L stream nl lc) as [lc1 |] eqn:Hadv; [| discriminate].
  intros Hk Hle. apply advance_bounds in Hadv. apply IH in Hk; lia.
Qed.

(** With more fuel than there is input left, the loop stops. *)
Lemma _Lex_loop_stops fuel : forall lc,
  String.length stream - LineCounter.char_pos lc < fuel ->
  _Lex_loop fuel (_Lex.mk L) stream nl ig lc <> Running.
Proof.
  induction fuel as [| fuel IH]; intros lc Hfuel; [lia |]. cbn.
  destruct (mres_match (Lexer.mres L) stream (LineCounter.char_pos lc))
    as [[v ty] |] eqn:Hm.
  - rewrite (_Lex_pass_match _ _ _ _ _ _ _ Hm).
    destruct (str_in ty ig); [| discriminate].
    apply IH. rewrite feed_char_pos. apply match_bounds in Hm. lia.
  - rewrite (_Lex_pass_no_match _ _ _ _ _ Hm).
    destruct (_ <? _)%nat; discriminate.
Qed.

End Progress.

Section Termination.
Context {E : Engine} (laws : EngineLaws E).
Variables (L : Lexer.t) (stream : string).
Hypothesis nonempty : forall n p, (n, p) ∈ alternatives_of (Lexer.mres L) ->
  forall s pos, re_match p s pos <> Some "".

(** A consumer that asks for more tokens than there is input left gets
    the whole sequence: it ends, and every token in it is non-empty. *)
Lemma Lexer_lex_from_terminates n : forall fuel g,
  LineCounter.char_pos (resume_ctr (Lexer.newline_types L) g) <= String.length stream ->
  String.length stream - LineCounter.char_pos (resume_ctr (Lexer.newline_types L) g) < n ->
  String.length stream - LineCounter.char_pos (resume_ctr (Lexer.newline_types L) g) < fuel ->
  exists ts,
    (Lexer_lex_from fuel n L stream g = (ts, Done)
     \/ exists e, Lexer_lex_from fuel n L stream g = (ts, LexicalError e))
    /\ Forall (fun t => 1 <= String.length (Token.value t)) ts.
Proof.
  induction n as [| n IH]; intros fuel g Hle Hn Hfuel; [lia |].
  cbn. rewrite Lexer_lex_next_loop.
  pose proof (_Lex_loop_sound L stream (Lexer.newline_types L) (Lexer.ignore_types L)
                fuel (resume_ctr (Lexer.newline_types L) g)) as Hs.
  pose proof (_Lex_loop_stops laws L stream (Lexer.newline_types L)
                (Lexer.ignore_types L) nonempty fuel _ Hfuel) as Hstop.
  destruct (_Lex_loop fuel _ stream _ _ _) as [t g' | | e | e |].
  - destruct Hs as (k & lc' & v & ty & Hk & -> & Hm & _ & ->).
    apply (advance_n_bounds laws L stream _ nonempty) in Hk as [Hk1 Hk2]; [| exact Hle].
    apply (match_bounds laws L stream nonempty) in Hm as [Hv1 Hv2].
    destruct (IH fuel (LexSuspended lc' v ty)) as (ts & Hts & Hall);
      try (cbn [resume_ctr]; rewrite feed_char_pos; lia).
    exists (apply_callback L
              (Token.mk ty v (LineCounter.char_pos lc') (LineCounter.line lc')
                 (LineCounter.column lc')) :: ts).
    split.
    + destruct Hts as [-> | [e ->]]; [left | right; exists e]; reflexivity.
    + constructor; [| exact Hall]. now rewrite apply_callback_value.
  - exists []. split; [now left | constructor].
  - exists []. split; [right; now exists e | constructor].
  - contradiction.
  - congruence.
Qed.

End Termination.

(** C7.  For a constructed lexer whose token patterns match no empty
    string: construction has rejected every [min_width] of 0; every
    match, emitted or ignored, is at least one character long and moves
    the offset strictly forward; and a consumer with more fuel than the
    input is long gets the whole token sequence, which ends in [Done] or
    in a lexical error and holds no empty token. *)
Theorem lexing_terminates {E : Engine} (laws : EngineLaws E)
    (fuel : nat) (tokens : list TokenDef.t) (ignore : list string) (L : Lexer.t) :
  Lexer__init__ fuel tokens ignore = Ret L ->
  (forall t, t ∈ tokens ->
     forall s pos, re_match (Pattern.to_regexp (TokenDef.pattern t)) s pos <> Some "") ->
  (forall t, t ∈ tokens -> Pattern.min_width (TokenDef.pattern t) <> 0%Z)
  /\ (forall stream lc v ty b,
        mres_match (Lexer.mres L) stream (LineCounter.char_pos lc) = Some (v, ty) ->
        1 <= String.length v
        /\ LineCounter.char_pos lc < LineCounter.char_pos (LineCounter.feed lc v b))
  /\ (forall stream fuel',
        String.length stream < fuel' ->
        exists ts,
          (Lexer_lex fuel' L stream = (ts, Done)
           \/ exists e, Lexer_lex fuel' L stream = (ts, LexicalError e))
          /\ Forall (fun t => 1 <= String.length (Token.value t)) ts).
Proof.
  intros HL Hne.
  assert (nonempty : forall n p, (n, p) ∈ alternatives_of (Lexer.mres L) ->
                     forall s pos, re_match p s pos <> Some "").
  { intros n p Hin. destruct (alternative_of_token _ _ _ _ _ _ HL Hin)
      as (t & Ht & _ & ->). now apply Hne. }
  split.
  { intros t Ht. apply Lexer__init___inv in HL as (Hs & _).
    now destruct (sanitize_ok _ _ Hs Ht). }
  split.
  { intros stream lc v ty b Hm.
    apply (match_bounds laws L stream nonempty) in Hm as [Hv _].
    rewrite feed_char_pos. lia. }
  intros stream fuel' Hfuel. unfold Lexer_lex.
  apply (Lexer_lex_from_terminates laws L stream nonempty); cbn; lia.
Qed.

(** ** [PyRe] satisfies the engine laws *)

Lemma string_of_list_ascii_app (l1 l2 : list ascii) :
  string_of_list_ascii (l1 ++ l2)%list
  = string_of_list_ascii l1 ++ string_of_list_ascii l2.
Proof.
  induction l1 as [| c l1 IH]; [reflexivity |].
  change (String c (string_of_list_ascii (l1 ++ l2)%list)
          = String c (string_of_list_ascii l1 ++ string_of_list_ascii l2)).
  now rewrite IH.
Qed.

Lemma PyRe_star_length f fuel : forall s rest,
  rest ∈ PyRe.star f fuel s -> length rest <= length s.
Proof.
  induction fuel as [| fuel IH]; intros s rest; cbn [PyRe.star].
  - intros H. apply list_elem_of_singleton in H. now subst.
  - intros H. apply elem_of_app in H as [H | H].
    + apply list_elem_of_In, in_flat_map in H as (s' & _ & H).
      destruct (Nat.ltb_spec (length s') (length s)); [| now cbn in H].
      apply list_elem_of_In, IH in H. lia.
    + apply list_elem_of_singleton in H. now subst.
Qed.

(** Whatever an expression leaves is shorter than its input by at least
    [min_len]. *)
Lemma PyRe_run_min_len r : forall s rest,
  rest ∈ PyRe.run r s -> length rest + PyRe.min_len r <= length s.
Proof.
  induction r as [| c | | neg items | a IHa b IHb | a IHa b IHb | a IHa | a IHa
                  | a IHa |]; intros s rest; cbn.
  - intros H. apply list_elem_of_singleton in H. subst. lia.
  - destruct s as [| x s]; [intros H; inversion H |].
    destruct (Ascii.eqb x c); intros H; [| inversion H].
    apply list_elem_of_singleton in H. subst. cbn. lia.
  - destruct s as [| x s]; [intros H; inversion H |].
    destruct (Ascii.eqb x Str.newline); intros H; [inversion H |].
    apply list_elem_of_singleton in H. subst. cbn. lia.
  - destruct s as [| x s]; [intros H; inversion H |].
    destruct (PyRe.set_has neg items x); intros H; [| inversion H].
    apply list_elem_of_singleton in H. subst. cbn. lia.
  - intros H. apply list_elem_of_In, in_flat_map in H as (mid & Hmid & H).
    apply list_elem_of_In, IHa in Hmid. apply list_elem_of_In, IHb in H. lia.
  - intros H. apply elem_of_app in H as [H | H]; [apply IHa in H | apply IHb in H]; lia.
  - intros H. apply PyRe_star_length in H. lia.
  - intros H. apply list_elem_of_In, in_flat_map in H as (mid & Hmid & H).
    apply list_elem_of_In, IHa in Hmid.
    apply list_elem_of_In, PyRe_star_length in H. lia.
  - intros H. apply elem_of_app in H as [H | H].
    + apply IHa in H. lia.
    + apply list_elem_of_singleton in H. subst. lia.
  - destruct s as [| x [| y s]]; intros H.
    + apply list_elem_of_singleton in H. subst. cbn. lia.
    + destruct (Ascii.eqb x Str.newline); [| inversion H].
      apply list_elem_of_singleton in H. subst. cbn. lia.
    + inversion H.
Qed.

(** A pattern whose expression consumes at least one character matches
    no empty string. *)
Lemma PyRe_no_empty_match p r n names :
  PyRe.parse p = Some (r, n, names) ->
  1 <= PyRe.min_len r ->
  forall s pos, re_match p s pos <> Some "".
Proof.
  intros Hp Hmin s pos. cbn. unfold PyRe.match_at. rewrite Hp.
  destruct (PyRe.run r (list_ascii_of_string (Str.from pos s)))
    as [| rest rests] eqn:Hrun; [discriminate |].
  assert (Hin : rest ∈ PyRe.run r (list_ascii_of_string (Str.from pos s)))
    by (rewrite Hrun; left).
  apply PyRe_run_min_len in Hin.
  destruct (list_ascii_of_string (Str.from pos s)) as [| c input]; cbn in Hin; [lia |].
  replace (length (c :: input) - length rest)
    with (S (length input - length rest)) by (cbn; lia).
  discriminate.
Qed.

Lemma PyRe_laws : EngineLaws PyRe_engine.
Proof.
  split; [| vm_compute; reflexivity].
  intros p s pos v. cbn. unfold PyRe.match_at.
  destruct (PyRe.parse p) as [[[r n] names] |]; [| discriminate].
  destruct (PyRe.run r _) as [| rest rests]; [discriminate |].
  intros [= <-].
  exists (string_of_list_ascii
            (drop (length (list_ascii_of_string (Str.from pos s)) - length rest)
               (list_ascii_of_string (Str.from pos s)))).
  now rewrite <- string_of_list_ascii_app, take_drop, string_of_list_ascii_of_string.
Qed.

(** A literal with an underscore: its escaped text compiles and matches
    the literal. *)
Example PyRe_escaped_underscore :
  re_compile (Pattern.to_regexp (pattern_str "a_b")) = Compiled
  /\ re_match (Pattern.to_regexp (pattern_str "a_b")) "a_b" 0 = Some "a_b"
  /\ exists L, Lexer__init__ 10 [literal "NAME" "a_b" 0] [] = Ret L
               /\ Lexer_lex 10 L "a_b" = ([Token.mk "NAME" "a_b" 0 1 0], Done).
Proof.
  split; [vm_compute; reflexivity |]. split; [vm_compute; reflexivity |].
  exists (Lexer.mk [] [] [] ∅ [literal "NAME" "a_b" 0]
            [alternatives "" [literal "NAME" "a_b" 0]]).
  split; vm_compute; reflexivity.
Qed.

(** On [PyRe] itself the disjunction that [_build_mres] joins selects
    what [mre_match] selects: the leftmost alternative that matches. *)
Example PyRe_joined_leftmost :
  re_match (joined "" [A_if; B_ifx]) "ifx" 0 = Some "if"
  /\ mre_match (alternatives "" [A_if; B_ifx]) "ifx" 0 = Some ("if", "A")
  /\ re_match (joined "" [B_ifx; A_if]) "ifx" 0 = Some "ifx"
  /\ mre_match (alternatives "" [B_ifx; A_if]) "ifx" 0 = Some ("ifx", "B")
  /\ re_match (joined "$" [A_if; B_ifx]) "ifx" 0 = Some "ifx"
  /\ mre_match (alternatives "$" [A_if; B_ifx]) "ifx" 0 = Some ("ifx", "B")
  /\ re_match (joined "" [IDENT; WHITESPACE]) " x" 0 = Some " "
  /\ mre_match (alternatives "" [IDENT; WHITESPACE]) " x" 0 = Some (" ", "WHITESPACE").
Proof. repeat split; vm_compute; reflexivity. Qed.

(** The lexer of [IDENT] on [ifx], through the theorem. *)
Lemma lexing_terminates_witness :
  exists L,
    Lexer__init__ 10 [IDENT] [] = Ret L
    /\ exists ts,
         (Lexer_lex 10 L "ifx" = (ts, Done)
          \/ exists e, Lexer_lex 10 L "ifx" = (ts, LexicalError e))
         /\ Forall (fun t => 1 <= String.length (Token.value t)) ts.
Proof.
  eexists. split; [vm_compute; reflexivity |].
  refine (proj2 (proj2 (lexing_terminates PyRe_laws 10 [IDENT] [] _ _ _)) "ifx" 10 _).
  - vm_compute; reflexivity.
  - intros t Ht. apply list_elem_of_singleton in Ht. subst t.
    eapply PyRe_no_empty_match; [vm_compute; reflexivity | cbn; lia].
  - cbn; lia.
Defined.

(** ** Contextual lexing *)

(** C8.  Each request on [ContextualLexer.lex] reads the lexer of the
    parser state as it is at that request: the first match is attempted
    with its matchers from a fresh line counter, and after a token the
    next match is attempted with its matchers from the position after
    that token, whichever lexer [l] has produced the tokens before.  In
    the scenario, state 1 accepts [A] and state 2 accepts [B]: the input
    [b] fails in state 1 and gives [B] in state 2; on [ab] the token [A]
    comes out in state 1, after which the next request fails if the
    state is still 1 and gives [B] if the state has been set to 2. *)
Theorem contextual_state_switch :
  (forall (E : Engine) fuel (self : ContextualLexer.t) stream state lexer,
      ContextualLexer.lexers self !! state = Some lexer ->
      let self' := ContextualLexer.set_parser_state self (Some state) in
      let root := ContextualLexer.root_lexer self in
      ContextualLexer_lex_next fuel self' stream CtxStart
      = pass_on (_Lex.mk lexer)
          (_Lex_loop fuel (_Lex.mk lexer) stream
             (Lexer.newline_types root) (Lexer.ignore_types root)
             LineCounter.__init__)
      /\ (forall l lc v ty,
            ContextualLexer_lex_next fuel self' stream
              (CtxSuspended l (LexSuspended lc v ty))
            = pass_on (_Lex.mk lexer)
                (_Lex_loop fuel (_Lex.mk lexer) stream
                   (Lexer.newline_types root) (Lexer.ignore_types root)
                   (LineCounter.feed lc v (str_in ty (Lexer.newline_types root)))))
      /\ (forall nl ig lc,
            _Lex_pass (_Lex.mk lexer) stream nl ig lc = Break
            \/ (exists e, _Lex_pass (_Lex.mk lexer) stream nl ig lc = RaiseUnexpected e)
            <-> mres_match (Lexer.mres lexer) stream (LineCounter.char_pos lc) = None))
  /\ (exists cl,
        ContextualLexer__init__ every_name 10 [TA; TB] two_states [] [] = Ret cl
        /\ let in1 := ContextualLexer.set_parser_state cl (Some 1) in
           let in2 := ContextualLexer.set_parser_state cl (Some 2) in
           ContextualLexer_lex_next 10 in1 "b" CtxStart
           = Unexpected (UnexpectedInput.mk "b" 1 0 "b" None)
           /\ (exists c, ContextualLexer_lex_next 10 in2 "b" CtxStart
                         = Yielded (Token.mk "B" "b" 0 1 0) c)
           /\ (exists c,
                 ContextualLexer_lex_next 10 in1 "ab" CtxStart
                 = Yielded (Token.mk "A" "a" 0 1 0) c
                 /\ ContextualLexer_lex_next 10 in1 "ab" c
                    = Unexpected (UnexpectedInput.mk "b" 1 1 "b" None)
                 /\ exists c', ContextualLexer_lex_next 10 in2 "ab" c
                               = Yielded (Token.mk "B" "b" 1 1 1) c')
           /\ ContextualLexer_lex_from 10 10 cl "ab"
                (fun seen => match seen with [] => Some 1 | _ => Some 2 end)
                [] CtxStart
              = ([Token.mk "A" "a" 0 1 0; Token.mk "B" "b" 1 1 1], Done)
           /\ ContextualLexer_lex_from 10 10 cl "ab" (fun _ => Some 1) [] CtxStart
              = ([Token.mk "A" "a" 0 1 0],
                 LexicalError (UnexpectedInput.mk "b" 1 1 "b" None))).
Proof.
  split.
  { intros E fuel self stream state lexer Hl self' root.
    assert (Hc : current_lexer self' = Some lexer) by exact Hl.
    split; [| split].
    - unfold ContextualLexer_lex_next. now rewrite Hc.
    - intros l lc v ty. unfold ContextualLexer_lex_next. now rewrite Hc.
    - intros nl ig lc.
      destruct (mres_match (Lexer.mres lexer) stream (LineCounter.char_pos lc))
        as [[v ty] |] eqn:Hm.
      + rewrite (_Lex_pass_match _ _ _ _ _ _ _ Hm).
        split; [| discriminate].
        destruct (str_in ty ig); intros [H | [e H]]; discriminate.
      + rewrite (_Lex_pass_no_match _ _ _ _ _ Hm).
        split; [reflexivity | intros _].
        destruct (_ <? _)%nat; [right; eauto | now left]. }
  eexists. split; [vm_compute; reflexivity |].
  cbv zeta.
  split; [vm_compute; reflexivity |].
  split; [eexists; vm_compute; reflexivity |].
  split.
  { eexists. split; [vm_compute; reflexivity |].
    split; [vm_compute; reflexivity |].
    eexists; vm_compute; reflexivity. }
  split; vm_compute; reflexivity.
Qed.

(** The two-state lexer in state 2 on [b], through the theorem. *)
Lemma contextual_state_switch_witness :
  exists cl lexer,
    ContextualLexer__init__ every_name 10 [TA; TB] two_states [] [] = Ret cl
    /\ ContextualLexer.lexers cl !! 2 = Some lexer
    /\ ContextualLexer_lex_next 10 (ContextualLexer.set_parser_state cl (Some 2))
         "b" CtxStart
       = pass_on (_Lex.mk lexer)
           (_Lex_loop 10 (_Lex.mk lexer) "b"
              (Lexer.newline_types (ContextualLexer.root_lexer cl))
              (Lexer.ignore_types (ContextualLexer.root_lexer cl))
              LineCounter.__init__).
Proof.
  eexists. eexists. split; [vm_compute; reflexivity |].
  split; [vm_compute; reflexivity |].
  refine (proj1 (proj1 contextual_state_switch PyRe_engine 10 _ "b" 2 _ _)).
  vm_compute; reflexivity.
Defined.

(** ** Priority over length *)


Lemma elem_of_List_filter {A : Type} (f : A -> bool) (l : list A) (x : A) :
  x ∈ List.filter f l <-> x ∈ l /\ f x = true.
Proof. now rewrite !list_elem_of_In, filter_In. Qed.

Section Selection.
Context {E : Engine}.

(** The literals in [embedded_strs] after the loop. *)
Lemma _create_unless_loop_embedded fuel strtoks : forall retoks emb cb emb' cb',
  _create_unless_loop fuel retoks strtoks emb cb = Ret (emb', cb') ->
  forall s, s ∈ emb' <->
    s ∈ emb \/ (s ∈ strtoks /\ exists r, r ∈ retoks /\ accepts_whole r s = true
                                       /\ flags_le s r = true).
Proof.
  induction retoks as [| r0 retoks IH]; intros emb cb emb' cb' H s.
  - cbn in H. injection H as <- <-. split; [auto |].
    intros [H | (_ & r & Hr & _)]; [exact H | inversion Hr].
  - cbn in H.
    assert (Hstep : exists cb0,
               _create_unless_loop fuel retoks strtoks
                 (emb ++ List.filter (fun strtok => flags_le strtok r0)
                           (List.filter (accepts_whole r0) strtoks))%list cb0
               = Ret (emb', cb')).
    { destruct (List.filter (accepts_whole r0) strtoks) as [| u unless] eqn:Hu.
      - eauto.
      - apply bind_Ret in H as (m & _ & H). eauto. }
    destruct Hstep as (cb0 & Hstep). rewrite (IH _ _ _ _ Hstep s).
    rewrite elem_of_app, !elem_of_List_filter. split.
    + intros [[Hs | ((Hs & Hacc) & Hfl)] | (Hs & r & Hr & Hacc & Hfl)].
      * now left.
      * right. split; [exact Hs |]. exists r0.
        split; [apply elem_of_cons; now left | auto].
      * right. split; [exact Hs |]. exists r.
        split; [apply elem_of_cons; now right | auto].
    + intros [Hs | (Hs & r & Hr & Hacc & Hfl)]; [now left; left |].
      apply elem_of_cons in Hr as [-> | Hr].
      * left. right. repeat split; auto.
      * right. split; [exact Hs |]. exists r. auto.
Qed.

(** What [_create_unless] keeps: every token but the literals that some
    regex token of the list accepts in whole, with flags that include
    the literal's. *)
Lemma _create_unless_kept fuel tokens tokens' callback :
  _create_unless fuel tokens = Ret (tokens', callback) ->
  forall t, t ∈ tokens' <->
    t ∈ tokens
    /\ ~ (Pattern.class (TokenDef.pattern t) = PatternStr
          /\ exists r, r ∈ tokens
               /\ Pattern.class (TokenDef.pattern r) = PatternRE
               /\ accepts_whole r t = true
               /\ Pattern.flags (TokenDef.pattern t)
                  ⊆ Pattern.flags (TokenDef.pattern r)).
Proof.
  intros H. apply _create_unless_inv in H as (emb & Hloop & ->).
  intros t. rewrite elem_of_List_filter.
  rewrite negb_true_iff, bool_decide_eq_false.
  rewrite (_create_unless_loop_embedded _ _ _ _ _ _ _ Hloop t).
  unfold tokens_by_type, flags_le.
  split; intros [Ht Hno]; (split; [exact Ht |]); intros Hbad; apply Hno.
  - destruct Hbad as (Hcls & r & Hr & Hre & Hacc & Hfl).
    right. split.
    + apply elem_of_List_filter. split; [exact Ht |].
      now apply bool_decide_eq_true.
    + exists r. repeat split; auto.
      * apply elem_of_List_filter. split; [exact Hr |].
        now apply bool_decide_eq_true.
      * now apply bool_decide_eq_true.
  - destruct Hbad as [Hbad | (Hs & r & Hr & Hacc & Hfl)]; [inversion Hbad |].
    apply elem_of_List_filter in Hs as [_ Hcls].
    apply elem_of_List_filter in Hr as [Hr Hre].
    apply bool_decide_eq_true in Hcls. apply bool_decide_eq_true in Hre.
    apply bool_decide_eq_true in Hfl.
    split; [exact Hcls |]. exists r. repeat split; auto.
Qed.

Lemma apply_callback_position lexer t :
  Token.pos_in_stream (apply_callback lexer t) = Token.pos_in_stream t
  /\ Token.line (apply_callback lexer t) = Token.line t
  /\ Token.column (apply_callback lexer t) = Token.column t.
Proof.
  unfold apply_callback, unless_callback.
  destruct (Lexer.callback lexer !! Token.type t) as [cb |]; [| auto].
  destruct (mres_match cb (Token.value t) 0) as [[v ty] |]; auto.
Qed.


End Selection.




(** ** Literal disambiguation *)


Section Unless.
Context {E : Engine}.




End Unless.




(** * Further properties of the module *)

(** ** [LineCounter.feed] *)

Lemma append_cons c (s1 s2 : string) : String c s1 ++ s2 = String c (s1 ++ s2).
Proof. reflexivity. Qed.

Lemma count_app c (s1 s2 : string) :
  Str.count c (s1 ++ s2) = Str.count c s1 + Str.count c s2.
Proof.
  induction s1 as [| x s1 IH]; [reflexivity |].
  rewrite append_cons. cbn [Str.count]. rewrite IH. lia.
Qed.

Lemma rindex_None_count c s : Str.rindex c s = None <-> Str.count c s = 0.
Proof.
  induction s as [| x s IH]; cbn; [tauto |].
  destruct (Str.rindex c s) as [i |].
  - split; [discriminate |]. intros H.
    assert (Hc : Str.count c s = 0) by lia. apply IH in Hc. discriminate.
  - destruct (Ascii.eqb x c); cbn.
    + split; discriminate.
    + split; [intros _; now apply IH | reflexivity].
Qed.

Lemma rindex_lt c s i : Str.rindex c s = Some i -> i < String.length s.
Proof.
  revert i. induction s as [| x s IH]; intros i; cbn; [discriminate |].
  destruct (Str.rindex c s) as [j |].
  - intros [= <-]. specialize (IH j eq_refl). lia.
  - destruct (Ascii.eqb x c); [intros [= <-]; lia | discriminate].
Qed.

Lemma rindex_app c (s1 s2 : string) :
  Str.rindex c (s1 ++ s2)
  = match Str.rindex c s2 with
    | Some i => Some (String.length s1 + i)
    | None => Str.rindex c s1
    end.
Proof.
  induction s1 as [| x s1 IH].
  - change ("" ++ s2) with s2. now destruct (Str.rindex c s2).
  - rewrite append_cons. cbn [Str.rindex String.length]. rewrite IH.
    destruct (Str.rindex c s2); reflexivity.
Qed.

(** With newlines counted, two feeds are one feed of the concatenation. *)
Lemma feed_feed (lc : LineCounter.t) (s1 s2 : string) :
  LineCounter.feed (LineCounter.feed lc s1 true) s2 true
  = LineCounter.feed lc (s1 ++ s2) true.
Proof.
  unfold LineCounter.feed. cbn [LineCounter.char_pos LineCounter.line
                                LineCounter.line_start_pos].
  rewrite count_app, rindex_app, string_length_app.
  pose proof (rindex_None_count Str.newline s1) as H1.
  pose proof (rindex_None_count Str.newline s2) as H2.
  destruct (Str.rindex Str.newline s1) as [i |];
    destruct (Str.rindex Str.newline s2) as [j |];
    destruct (Str.count Str.newline s1) as [| c1];
    destruct (Str.count Str.newline s2) as [| c2];
    try (destruct H1 as [H1 H1']; (discriminate (H1 eq_refl) || discriminate (H1' eq_refl)));
    try (destruct H2 as [H2 H2']; (discriminate (H2 eq_refl) || discriminate (H2' eq_refl)));
    cbn [Nat.add Nat.eqb]; f_equal; lia.
Qed.

(** X1.  Feeding two pieces of text one after the other leaves the
    counter that feeding their concatenation leaves, whether newlines
    are counted or not. *)
Theorem feed_app (lc : LineCounter.t) (s1 s2 : string) (test_newline : bool) :
  LineCounter.feed (LineCounter.feed lc s1 test_newline) s2 test_newline
  = LineCounter.feed lc (s1 ++ s2) test_newline.
Proof.
  destruct test_newline; [apply feed_feed |].
  unfold LineCounter.feed. cbn. rewrite string_length_app. f_equal; lia.
Qed.

(** X2.  The counter never rewinds: the offset and the line do not go
    down, the column is the distance to the start of the line, and the
    start of the line stays at or before the offset. *)
Theorem feed_monotone (lc : LineCounter.t) (token : string) (test_newline : bool) :
  let lc' := LineCounter.feed lc token test_newline in
  LineCounter.char_pos lc' = LineCounter.char_pos lc + String.length token
  /\ LineCounter.line lc <= LineCounter.line lc'
  /\ LineCounter.column lc'
     = LineCounter.char_pos lc' - LineCounter.line_start_pos lc'
  /\ (LineCounter.line_start_pos lc <= LineCounter.char_pos lc ->
      LineCounter.line_start_pos lc <= LineCounter.line_start_pos lc'
      /\ LineCounter.line_start_pos lc' <= LineCounter.char_pos lc').
Proof.
  unfold LineCounter.feed. cbn.
  split; [reflexivity |]. split; [destruct (_ =? 0)%nat; lia |].
  split; [reflexivity |]. intros Hle.
  destruct (_ =? 0)%nat; [lia |].
  destruct (Str.rindex Str.newline token) as [i |] eqn:Hi; [| lia].
  apply rindex_lt in Hi. lia.
Qed.

Lemma feed_monotone_witness :
  LineCounter.line_start_pos LineCounter.__init__
  <= LineCounter.line_start_pos
       (LineCounter.feed LineCounter.__init__ ("a" ++ String Str.newline "b") true)
  /\ LineCounter.line_start_pos
       (LineCounter.feed LineCounter.__init__ ("a" ++ String Str.newline "b") true)
     <= LineCounter.char_pos
          (LineCounter.feed LineCounter.__init__ ("a" ++ String Str.newline "b") true).
Proof.
  refine (proj2 (proj2 (proj2
            (feed_monotone LineCounter.__init__ ("a" ++ String Str.newline "b") true))) _).
  cbn; lia.
Defined.

(** ** The tokens of a session and the text *)

Lemma upto_length pos s : String.length (Str.upto pos s) = Nat.min pos (String.length s).
Proof.
  revert s. induction pos as [| pos IH]; intros [| c s]; cbn; auto.
Qed.

Lemma from_app_add pos s v rest :
  Str.from pos s = v ++ rest -> Str.from (pos + String.length v) s = rest.
Proof.
  revert s. induction pos as [| pos IH]; intros s.
  - cbn [Str.from Nat.add]. intros ->. clear.
    induction v as [| c v IH]; [now destruct rest |].
    rewrite append_cons. exact IH.
  - destruct s as [| c s]; cbn [Str.from Nat.add].
    + intros H. destruct v; [| discriminate].
      change ("" ++ rest) with rest in H. subst rest.
      now destruct (pos + 0).
    + apply IH.
Qed.

Lemma upto_app_add pos s v rest :
  Str.from pos s = v ++ rest ->
  Str.upto (pos + String.length v) s = Str.upto pos s ++ v.
Proof.
  revert s. induction pos as [| pos IH]; intros s.
  - cbn [Str.from Nat.add Str.upto]. intros ->.
    change ("" ++ v) with v. clear.
    induction v as [| c v IH]; [now destruct rest |].
    rewrite append_cons. cbn [String.length Str.upto]. now rewrite IH.
  - destruct s as [| c s]; cbn [Str.from Nat.add Str.upto].
    + intros H. destruct v; [reflexivity | discriminate].
    + intros H. rewrite append_cons. now rewrite (IH _ H).
Qed.

Lemma substring_prefix v rest : substring 0 (String.length v) (v ++ rest) = v.
Proof.
  induction v as [| c v IH]; [now destruct rest |].
  rewrite append_cons. cbn [String.length substring]. now rewrite IH.
Qed.

Lemma substring_from pos m s : substring pos m s = substring 0 m (Str.from pos s).
Proof.
  revert s. induction pos as [| pos IH]; intros s; [reflexivity |].
  destruct s as [| c s]; cbn [substring Str.from]; [now destruct m | apply IH].
Qed.

Lemma str_in_nil x : str_in x [] = false.
Proof. reflexivity. Qed.

Section Trace.
Context {E : Engine}.
Variables (L : Lexer.t) (stream : string).

Lemma advance_n_le k : forall nl lc lc',
  advance_n k L stream nl lc = Some lc' ->
  LineCounter.char_pos lc <= LineCounter.char_pos lc'.
Proof.
  induction k as [| k IH]; intros nl lc lc'; cbn; [intros [= ->]; lia |].
  unfold advance.
  destruct (mres_match _ _ _) as [[v ty] |]; [| discriminate].
  intros H. apply IH in H. rewrite feed_char_pos in H. lia.
Qed.

(** Every token delivered was built at a line counter the session has
    reached, from a match that is not ignored. *)
Lemma Lexer_lex_from_trace n : forall fuel g ts e,
  Lexer_lex_from fuel n L stream g = (ts, e) ->
  Forall (fun t => exists k lc v ty,
            advance_n k L stream (Lexer.newline_types L)
              (resume_ctr (Lexer.newline_types L) g) = Some lc
            /\ mres_match (Lexer.mres L) stream (LineCounter.char_pos lc) = Some (v, ty)
            /\ str_in ty (Lexer.ignore_types L) = false
            /\ t = apply_callback L
                     (Token.mk ty v (LineCounter.char_pos lc) (LineCounter.line lc)
                        (LineCounter.column lc))) ts.
Proof.
  induction n as [| n IH]; intros fuel g ts e; cbn; [intros [= <- _]; constructor |].
  rewrite Lexer_lex_next_loop.
  pose proof (_Lex_loop_sound L stream (Lexer.newline_types L) (Lexer.ignore_types L)
                fuel (resume_ctr (Lexer.newline_types L) g)) as Hs.
  destruct (_Lex_loop fuel _ stream _ _ _) as [t g' | | e' | e' |];
    try (intros [= <- _]; constructor).
  destruct (Lexer_lex_from fuel n L stream g') as [ts' e''] eqn:Hrec.
  intros [= <- _]. apply IH in Hrec.
  destruct Hs as (k & lc & v & ty & Hk & -> & Hm & Hig & ->).
  constructor; [exists k, lc, v, ty; auto |].
  eapply Forall_impl; [exact Hrec |].
  intros t' (k' & lc' & v' & ty' & Hk' & H). exists (k + S k'), lc', v', ty'.
  split; [| exact H].
  rewrite (advance_n_add _ _ _ _ _ _ _ Hk). cbn. unfold advance. rewrite Hm.
  exact Hk'.
Qed.

(** The tokens come out in the order of their offsets, each one behind
    the text of the one before. *)
Lemma Lexer_lex_from_ordered n : forall fuel g ts e,
  Lexer_lex_from fuel n L stream g = (ts, e) ->
  Forall (fun t => LineCounter.char_pos (resume_ctr (Lexer.newline_types L) g)
                   <= Token.pos_in_stream t) ts
  /\ StronglySorted
       (fun t u => Token.pos_in_stream t + String.length (Token.value t)
                   <= Token.pos_in_stream u) ts.
Proof.
  induction n as [| n IH]; intros fuel g ts e; cbn;
    [intros [= <- _]; split; constructor |].
  rewrite Lexer_lex_next_loop.
  pose proof (_Lex_loop_sound L stream (Lexer.newline_types L) (Lexer.ignore_types L)
                fuel (resume_ctr (Lexer.newline_types L) g)) as Hs.
  destruct (_Lex_loop fuel _ stream _ _ _) as [t g' | | e' | e' |];
    try (intros [= <- _]; split; constructor).
  destruct (Lexer_lex_from fuel n L stream g') as [ts' e''] eqn:Hrec.
  intros [= <- _]. apply IH in Hrec as [Hpos Hsorted].
  destruct Hs as (k & lc & v & ty & Hk & -> & Hm & Hig & ->).
  apply advance_n_le in Hk.
  cbn [resume_ctr] in Hpos. rewrite Forall_forall in Hpos.
  destruct (apply_callback_position L
              (Token.mk ty v (LineCounter.char_pos lc) (LineCounter.line lc)
                 (LineCounter.column lc))) as (Hp & _ & _).
  cbn [Token.pos_in_stream] in Hp.
  split.
  - constructor; [rewrite Hp; exact Hk |].
    apply Forall_forall. intros t' Ht'. apply Hpos in Ht'.
    rewrite feed_char_pos in Ht'. lia.
  - constructor; [exact Hsorted |].
    apply Forall_forall. intros t' Ht'. apply Hpos in Ht'.
    rewrite feed_char_pos in Ht'. rewrite Hp, apply_callback_value. cbn. lia.
Qed.

End Trace.

(** X3.  Every token of a session carries the text of the stream at its
    offset, and the tokens come in the order of their offsets without
    overlapping. *)
Theorem tokens_are_slices {E : Engine} (laws : EngineLaws E)
    (L : Lexer.t) (stream : string) (fuel : nat) (ts : list Token.t) (e : ending) :
  Lexer_lex fuel L stream = (ts, e) ->
  Forall (fun t => substring (Token.pos_in_stream t) (String.length (Token.value t))
                     stream = Token.value t) ts
  /\ StronglySorted
       (fun t u => Token.pos_in_stream t + String.length (Token.value t)
                   <= Token.pos_in_stream u) ts.
Proof.
  intros H. split; [| exact (proj2 (Lexer_lex_from_ordered L stream _ _ _ _ _ H))].
  apply Lexer_lex_from_trace in H.
  eapply Forall_impl; [exact H |].
  intros t (k & lc & v & ty & _ & Hm & _ & ->).
  rewrite apply_callback_value.
  destruct (apply_callback_position L
              (Token.mk ty v (LineCounter.char_pos lc) (LineCounter.line lc)
                 (LineCounter.column lc))) as (-> & _ & _).
  cbn [Token.value Token.pos_in_stream].
  rewrite mres_match_concat in Hm.
  apply mre_match_Some in Hm as (i & p & _ & Hv & _).
  destruct (re_match_slice E laws _ _ _ _ Hv) as [rest Hrest].
  now rewrite substring_from, Hrest, substring_prefix.
Qed.

(** The three lexers of the examples are what construction returns. *)
Example example_lexers_built :
  Lexer__init__ 10 [IDENT; WHITESPACE] ["WHITESPACE"] = Ret ident_ws_lexer
  /\ Lexer__init__ 10 [IDENT; NEWLINE] [] = Ret ident_nl_lexer
  /\ Lexer__init__ 10 [A_if; B_ifx] [] = Ret if_ifx_lexer.
Proof. repeat split; vm_compute; reflexivity. Qed.

(** [ident_ws_lexer] on [ab  cd], through the theorem. *)
Lemma tokens_are_slices_witness :
  Lexer_lex 10 ident_ws_lexer "ab  cd"
  = ([Token.mk "IDENT" "ab" 0 1 0; Token.mk "IDENT" "cd" 4 1 4], Done)
  /\ Forall (fun t => substring (Token.pos_in_stream t)
                         (String.length (Token.value t)) "ab  cd" = Token.value t)
       [Token.mk "IDENT" "ab" 0 1 0; Token.mk "IDENT" "cd" 4 1 4].
Proof.
  split; [vm_compute; reflexivity |].
  refine (proj1 (tokens_are_slices PyRe_laws ident_ws_lexer "ab  cd" 10
                   [Token.mk "IDENT" "ab" 0 1 0; Token.mk "IDENT" "cd" 4 1 4] Done _)).
  vm_compute; reflexivity.
Defined.

(** ** Lines and columns *)

Lemma feed_no_newline lc v :
  Str.count Str.newline v = 0 ->
  LineCounter.feed lc v false = LineCounter.feed lc v true.
Proof. unfold LineCounter.feed. now intros ->. Qed.

Lemma counter_of_text text :
  let lc := LineCounter.feed LineCounter.__init__ text true in
  LineCounter.char_pos lc = String.length text
  /\ LineCounter.line lc = 1 + Str.count Str.newline text
  /\ LineCounter.column lc
     = match Str.rindex Str.newline text with
       | Some i => String.length text - (i + 1)
       | None => String.length text
       end.
Proof.
  unfold LineCounter.feed. cbn.
  pose proof (rindex_None_count Str.newline text) as H.
  destruct (Str.rindex Str.newline text) as [i |];
    destruct (Str.count Str.newline text) as [| c]; cbn;
    try (destruct H as [H H']; (discriminate (H eq_refl) || discriminate (H' eq_refl)));
    repeat split; lia.
Qed.

Section ExactPositions.
Context {E : Engine} (laws : EngineLaws E).
Variables (L : Lexer.t) (stream : string).
Hypothesis complete : forall pos v ty,
  mres_match (Lexer.mres L) stream pos = Some (v, ty) ->
  str_in ty (Lexer.newline_types L) = false ->
  Str.count Str.newline v = 0.

(** The line counter of a session is the counter of the text before
    its offset, read in one piece. *)
Lemma advance_exact lc lc' :
  lc = LineCounter.feed LineCounter.__init__
         (Str.upto (LineCounter.char_pos lc) stream) true ->
  advance L stream (Lexer.newline_types L) lc = Some lc' ->
  lc' = LineCounter.feed LineCounter.__init__
          (Str.upto (LineCounter.char_pos lc') stream) true.
Proof.
  intros Hinv. unfold advance.
  destruct (mres_match (Lexer.mres L) stream (LineCounter.char_pos lc))
    as [[v ty] |] eqn:Hm; [| discriminate].
  intros [= <-]. rewrite feed_char_pos.
  assert (Hfeed : LineCounter.feed lc v (str_in ty (Lexer.newline_types L))
                  = LineCounter.feed lc v true).
  { destruct (str_in ty (Lexer.newline_types L)) eqn:Hnl; [reflexivity |].
    apply feed_no_newline. eapply complete; eauto. }
  rewrite Hfeed.
  rewrite mres_match_concat in Hm.
  apply mre_match_Some in Hm as (i & p & _ & Hv & _).
  destruct (re_match_slice E laws _ _ _ _ Hv) as [rest Hrest].
  rewrite (upto_app_add _ _ _ _ Hrest), <- feed_feed, <- Hinv. reflexivity.
Qed.

Lemma advance_n_exact k : forall lc lc',
  lc = LineCounter.feed LineCounter.__init__
         (Str.upto (LineCounter.char_pos lc) stream) true ->
  advance_n k L stream (Lexer.newline_types L) lc = Some lc' ->
  lc' = LineCounter.feed LineCounter.__init__
          (Str.upto (LineCounter.char_pos lc') stream) true.
Proof.
  induction k as [| k IH]; intros lc lc' Hinv; cbn; [now intros [= <-] |].
  destruct (advance L stream (Lexer.newline_types L) lc) as [lc1 |] eqn:Hadv;
    [| discriminate].
  apply IH. eapply advance_exact; eauto.
Qed.

End ExactPositions.

(** X4.  If every match whose type is not in [newline_types] holds no
    newline, every token of a session carries the line and the column
    of its offset in the stream. *)
Theorem token_positions_exact {E : Engine} (laws : EngineLaws E)
    (L : Lexer.t) (stream : string) (fuel : nat) (ts : list Token.t) (e : ending) :
  (forall pos v ty,
     mres_match (Lexer.mres L) stream pos = Some (v, ty) ->
     str_in ty (Lexer.newline_types L) = false ->
     Str.count Str.newline v = 0) ->
  Lexer_lex fuel L stream = (ts, e) ->
  Forall (fun t => Token.line t = line_of (Token.pos_in_stream t) stream
                   /\ Token.column t = column_of (Token.pos_in_stream t) stream) ts.
Proof.
  intros Hcomplete H. apply Lexer_lex_from_trace in H.
  eapply Forall_impl; [exact H |].
  intros t (k & lc & v & ty & Hk & _ & _ & ->).
  destruct (apply_callback_position L
              (Token.mk ty v (LineCounter.char_pos lc) (LineCounter.line lc)
                 (LineCounter.column lc))) as (-> & -> & ->).
  cbn [Token.pos_in_stream Token.line Token.column].
  apply (advance_n_exact laws L stream Hcomplete) in Hk; [| reflexivity].
  destruct (counter_of_text (Str.upto (LineCounter.char_pos lc) stream))
    as (Hp & Hl & Hc).
  rewrite <- Hk in Hp, Hl, Hc. unfold line_of, column_of.
  rewrite Hl, Hc, <- Hp. split; reflexivity.
Qed.

(** [ident_nl_lexer] on three lines, through the theorem. *)
Lemma token_positions_exact_witness :
  let nl := String Str.newline "" in
  let stream := "ab" ++ nl ++ nl ++ "cd" in
  Lexer_lex 10 ident_nl_lexer stream
  = ([Token.mk "IDENT" "ab" 0 1 0; Token.mk "NEWLINE" (nl ++ nl) 2 1 2;
      Token.mk "IDENT" "cd" 4 3 0], Done)
  /\ Forall (fun t => Token.line t = line_of (Token.pos_in_stream t) stream
                      /\ Token.column t = column_of (Token.pos_in_stream t) stream)
       [Token.mk "IDENT" "ab" 0 1 0; Token.mk "NEWLINE" (nl ++ nl) 2 1 2;
        Token.mk "IDENT" "cd" 4 3 0].
Proof.
  intros nl stream. split; [vm_compute; reflexivity |].
  refine (token_positions_exact PyRe_laws ident_nl_lexer stream 10 _ Done _ _).
  - intros pos v ty.
    do 7 (destruct pos as [| pos]; [vm_compute; intros [= <- <-];
                                    first [discriminate | reflexivity] |]).
    vm_compute. discriminate.
  - vm_compute; reflexivity.
Defined.

(** ** Tokens without ignored types cover the text *)

Lemma join_cons (v : string) (l : list string) :
  Str.join "" (v :: l) = v ++ Str.join "" l.
Proof.
  destruct l as [| x l]; [cbn; now rewrite string_app_nil_r | reflexivity].
Qed.

Lemma from_ge pos s : String.length s <= pos -> Str.from pos s = "".
Proof.
  revert s. induction pos as [| pos IH]; intros [| c s]; cbn; auto; try lia.
  intros H. apply IH. lia.
Qed.

Lemma from_lt pos s : pos < String.length s -> Str.from pos s <> "".
Proof.
  intros Hlt Heq. apply (f_equal String.length) in Heq.
  rewrite Str_from_length in Heq. cbn in Heq. lia.
Qed.

Section Lossless.
Context {E : Engine} (laws : EngineLaws E).
Variables (L : Lexer.t) (stream : string).
Hypothesis no_ignore : Lexer.ignore_types L = [].

Lemma Lexer_lex_from_covers n : forall fuel g ts e,
  Lexer_lex_from fuel n L stream g = (ts, e) ->
  let here := LineCounter.char_pos (resume_ctr (Lexer.newline_types L) g) in
  match e with
  | Done => Str.join "" (map Token.value ts) = Str.from here stream
  | LexicalError err =>
      exists rest,
        rest <> ""
        /\ Str.from here stream = Str.join "" (map Token.value ts) ++ rest
        /\ UnexpectedInput.context err = substring 0 5 rest
  | _ => True
  end.
Proof.
  induction n as [| n IH]; intros fuel g ts e; cbn; [now intros [= <- <-] |].
  rewrite Lexer_lex_next_loop.
  destruct fuel as [| fuel]; cbn [_Lex_loop]; [now intros [= <- <-] |].
  set (lc := resume_ctr (Lexer.newline_types L) g).
  destruct (mres_match (Lexer.mres L) stream (LineCounter.char_pos lc))
    as [[v ty] |] eqn:Hm.
  - rewrite (_Lex_pass_match _ _ _ _ _ _ _ Hm), no_ignore, str_in_nil.
    destruct (Lexer_lex_from (S fuel) n L stream (LexSuspended lc v ty))
      as [ts' e'] eqn:Hrec.
    intros [= <- <-]. apply IH in Hrec. cbn [resume_ctr] in Hrec.
    rewrite feed_char_pos in Hrec.
    rewrite mres_match_concat in Hm.
    apply mre_match_Some in Hm as (i & p & _ & Hv & _).
    destruct (re_match_slice E laws _ _ _ _ Hv) as [rest Hrest].
    rewrite (from_app_add _ _ _ _ Hrest) in Hrec.
    cbn [map]. rewrite join_cons, apply_callback_value. cbn [Token.value].
    destruct e'; auto.
    + now rewrite Hrest, Hrec.
    + destruct Hrec as (rest' & Hne & -> & Hctx). exists rest'.
      repeat split; auto. rewrite Hrest. clear.
      induction v as [| c v IHv]; [reflexivity |].
      rewrite !append_cons. now rewrite IHv.
  - rewrite (_Lex_pass_no_match _ _ _ _ _ Hm).
    destruct (Nat.ltb_spec (LineCounter.char_pos lc) (String.length stream)).
    + intros [= <- <-]. exists (Str.from (LineCounter.char_pos lc) stream).
      split; [now apply from_lt |]. split; [reflexivity |].
      cbn. apply substring_from.
    + intros [= <- <-]. cbn. symmetry. now apply from_ge.
Qed.

End Lossless.

(** X5.  For a lexer that ignores no type: when the session ends in
    [Done], the values of its tokens, joined, are the stream; when it
    ends in a lexical error, they are the stream up to the error, and
    the context of the error is made of the next characters (at most
    five). *)
Theorem tokens_cover_stream {E : Engine} (laws : EngineLaws E)
    (L : Lexer.t) (stream : string) (fuel : nat) (ts : list Token.t) (e : ending) :
  Lexer.ignore_types L = [] ->
  Lexer_lex fuel L stream = (ts, e) ->
  match e with
  | Done => Str.join "" (map Token.value ts) = stream
  | LexicalError err =>
      exists rest,
        rest <> ""
        /\ stream = Str.join "" (map Token.value ts) ++ rest
        /\ UnexpectedInput.context err = substring 0 5 rest
  | _ => True
  end.
Proof.
  intros Hig H. apply (Lexer_lex_from_covers laws L stream Hig) in H.
  cbn in H. exact H.
Qed.

(** [if_ifx_lexer] on [ifif], through the theorem. *)
Lemma tokens_cover_stream_witness :
  Lexer_lex 10 if_ifx_lexer "ifif"
  = ([Token.mk "A" "if" 0 1 0; Token.mk "A" "if" 2 1 2], Done)
  /\ Str.join "" (map Token.value [Token.mk "A" "if" 0 1 0; Token.mk "A" "if" 2 1 2])
     = "ifif".
Proof.
  split; [vm_compute; reflexivity |].
  refine (tokens_cover_stream PyRe_laws if_ifx_lexer "ifif" 10
            [Token.mk "A" "if" 0 1 0; Token.mk "A" "if" 2 1 2] Done _ _).
  - reflexivity.
  - vm_compute; reflexivity.
Defined.

(** ** What [Lexer.__init__] refuses *)

Lemma str_in_iff (x : string) (l : list string) : str_in x l = true <-> x ∈ l.
Proof.
  unfold str_in. rewrite existsb_exists. split.
  - intros (y & Hy & Heq). apply String.eqb_eq in Heq. subst y.
    now apply list_elem_of_In.
  - intros H. exists x. split; [now apply list_elem_of_In | apply String.eqb_refl].
Qed.

Section Refusals.
Context {E : Engine}.

Lemma sanitize_prefix pre : forall rest,
  (forall u, u ∈ pre ->
     re_compile (Pattern.to_regexp (TokenDef.pattern u)) = Compiled
     /\ Pattern.min_width (TokenDef.pattern u) <> 0%Z) ->
  sanitize (pre ++ rest) = sanitize rest.
Proof.
  induction pre as [| u pre IH]; intros rest Hok; [reflexivity |].
  cbn. destruct (Hok u) as [-> Hw]; [apply elem_of_cons; now left |].
  destruct (Z.eqb_spec (Pattern.min_width (TokenDef.pattern u)) 0); [contradiction |].
  apply IH. intros v Hv. apply Hok. apply elem_of_cons. now right.
Qed.

Lemma sanitize_all tokens :
  (forall u, u ∈ tokens ->
     re_compile (Pattern.to_regexp (TokenDef.pattern u)) = Compiled
     /\ Pattern.min_width (TokenDef.pattern u) <> 0%Z) ->
  sanitize tokens = Ret ().
Proof.
  intros Hok. rewrite <- (app_nil_r tokens). now rewrite sanitize_prefix.
Qed.

End Refusals.

(** X6.  Construction raises a [LexError] for the first token, in the
    order given, whose expression does not compile or whose minimum
    width is 0, whatever the ignore list and whatever follows; the
    compilation is checked before the width. *)
Theorem Lexer_rejects_first_bad_token {E : Engine}
    (fuel : nat) (pre post : list TokenDef.t) (t : TokenDef.t) (ignore : list string) :
  (forall u, u ∈ pre ->
     re_compile (Pattern.to_regexp (TokenDef.pattern u)) = Compiled
     /\ Pattern.min_width (TokenDef.pattern u) <> 0%Z) ->
  (re_compile (Pattern.to_regexp (TokenDef.pattern t)) <> Compiled ->
   Lexer__init__ fuel (pre ++ t :: post) ignore
   = Raise (LexError_cannot_compile (TokenDef.name t)))
  /\ (re_compile (Pattern.to_regexp (TokenDef.pattern t)) = Compiled ->
      Pattern.min_width (TokenDef.pattern t) = 0%Z ->
      Lexer__init__ fuel (pre ++ t :: post) ignore
      = Raise (LexError_zero_width (TokenDef.name t))).
Proof.
  intros Hok. unfold Lexer__init__. rewrite (sanitize_prefix pre _ Hok). cbn [sanitize].
  split.
  - intros Hc. destruct (re_compile _); [congruence | reflexivity | reflexivity].
  - intros -> ->. reflexivity.
Qed.

(** [IDENT] followed by [EMPTY] and then [BROKEN], through the
    theorem: the zero width of [EMPTY] is reported. *)
Lemma Lexer_rejects_first_bad_token_witness :
  Lexer__init__ 10 ([IDENT] ++ EMPTY :: [BROKEN]) []
  = Raise (LexError_zero_width "EMPTY").
Proof.
  refine (proj2 (Lexer_rejects_first_bad_token (E := PyRe_engine)
                   10 [IDENT] [BROKEN] EMPTY [] _) _ _).
  - intros u Hu. apply list_elem_of_singleton in Hu. subst u.
    split; [vm_compute; reflexivity | discriminate].
  - vm_compute; reflexivity.
  - reflexivity.
Defined.

(** A constructed lexer was given an ignore list of token names. *)
Lemma Lexer__init___ignore_names {E : Engine}
    (fuel : nat) (tokens : list TokenDef.t) (ignore : list string) (L : Lexer.t) :
  Lexer__init__ fuel tokens ignore = Ret L ->
  forall n, n ∈ ignore -> n ∈ map TokenDef.name tokens.
Proof.
  intros HL. unfold Lexer__init__ in HL. apply bind_Ret in HL as ([] & _ & HL).
  destruct (forallb _ ignore) eqn:Hall; [| discriminate].
  intros n Hn. rewrite forallb_forall in Hall.
  apply str_in_iff, Hall. now apply list_elem_of_In.
Qed.

(** X7.  An ignore list that names something that is no token makes
    construction fail with an [AssertionError] once every token has
    passed the checks, before anything is sorted or compiled; and a
    lexer that was constructed ignores exactly the list it was given,
    all of it token names. *)
Theorem Lexer_ignore_checked {E : Engine}
    (fuel : nat) (tokens : list TokenDef.t) (ignore : list string) :
  ((forall u, u ∈ tokens ->
      re_compile (Pattern.to_regexp (TokenDef.pattern u)) = Compiled
      /\ Pattern.min_width (TokenDef.pattern u) <> 0%Z) ->
   forall n, n ∈ ignore -> n ∉ map TokenDef.name tokens ->
   Lexer__init__ fuel tokens ignore = Raise AssertionError)
  /\ (forall L, Lexer__init__ fuel tokens ignore = Ret L ->
      Lexer.ignore_types L = ignore
      /\ forall n, n ∈ ignore -> n ∈ map TokenDef.name tokens).
Proof.
  split.
  - intros Hok n Hn Hnot. unfold Lexer__init__. rewrite (sanitize_all _ Hok).
    cbn [mbind outcome_bind].
    replace (forallb (fun n0 => str_in n0 (map TokenDef.name tokens)) ignore)
      with false; [reflexivity |].
    symmetry. apply not_true_is_false. intros Hall.
    rewrite forallb_forall in Hall. apply Hnot, str_in_iff, Hall.
    now apply list_elem_of_In.
  - intros L HL. split; [now apply Lexer__init___inv in HL |].
    now apply (Lexer__init___ignore_names fuel tokens ignore L).
Qed.

(** [IDENT] with an ignore list that names [WHITESPACE], through the
    theorem. *)
Lemma Lexer_ignore_checked_witness :
  Lexer__init__ 10 [IDENT] ["WHITESPACE"] = Raise AssertionError.
Proof.
  refine (proj1 (Lexer_ignore_checked (E := PyRe_engine) 10 [IDENT] ["WHITESPACE"])
            _ "WHITESPACE" _ _).
  - intros u Hu. apply list_elem_of_singleton in Hu. subst u.
    split; [vm_compute; reflexivity | discriminate].
  - apply list_elem_of_singleton. reflexivity.
  - intros H. apply list_elem_of_singleton in H. discriminate.
Defined.

(** ** The order in which the tokens are given *)

Lemma precedes_antisym x y :
  precedes x y -> precedes y x -> TokenDef.name x = TokenDef.name y.
Proof.
  unfold precedes. intros Hxy Hyx. apply String.leb_antisym.
  - destruct Hxy as [H | [? [H | [? [H | [? H]]]]]]; try exact H; exfalso; lia.
  - destruct Hyx as [H | [? [H | [? [H | [? H]]]]]]; try exact H; exfalso; lia.
Qed.

(** Two sorted lists of the same tokens, with unique names, are the
    same list. *)
Lemma sorted_unique (l1 : list TokenDef.t) : forall l2,
  StronglySorted precedes l1 -> StronglySorted precedes l2 ->
  Permutation l1 l2 -> NoDup (map TokenDef.name l1) -> l1 = l2.
Proof.
  induction l1 as [| x l1 IH]; intros l2 Hs1 Hs2 Hp Hnd.
  - apply Permutation_nil in Hp. now subst.
  - destruct l2 as [| y l2]; [symmetry in Hp; now apply Permutation_nil in Hp |].
    apply StronglySorted_inv in Hs1 as [Hs1 Hx].
    apply StronglySorted_inv in Hs2 as [Hs2 Hy].
    cbn in Hnd. apply NoDup_cons in Hnd as [Hxn Hnd].
    assert (Hxy : x = y).
    { assert (Hx2 : x ∈ y :: l2) by (rewrite <- Hp; left).
      assert (Hy1 : y ∈ x :: l1) by (rewrite Hp; left).
      apply elem_of_cons in Hx2 as [Hx2 | Hx2]; [exact Hx2 |].
      apply elem_of_cons in Hy1 as [Hy1 | Hy1]; [now symmetry |].
      rewrite Forall_forall in Hx, Hy.
      pose proof (precedes_antisym _ _ (Hx _ Hy1) (Hy _ Hx2)) as Hname.
      exfalso. apply Hxn. rewrite Hname.
      apply list_elem_of_In, in_map. now apply list_elem_of_In. }
    subst y. f_equal. apply IH; auto.
    now apply Permutation_cons_inv in Hp.
Qed.

Lemma newline_types_of_perm l l' :
  Permutation l l' -> Permutation (newline_types_of l) (newline_types_of l').
Proof.
  unfold newline_types_of. intros Hp. apply Permutation_map.
  induction Hp as [| x l l' Hp IH | x y l | l l' l'' H1 IH1 H2 IH2]; cbn.
  - constructor.
  - destruct (_regexp_has_newline _); [now constructor | exact IH].
  - destruct (_regexp_has_newline _); destruct (_regexp_has_newline _);
      try reflexivity. apply perm_swap.
  - etransitivity; eauto.
Qed.

(** X8.  With unique token names, the order in which the tokens are
    given does not matter: two arrangements of the same tokens are
    sorted into the same list, and if construction returns for one it
    returns for the other, with the same tokens, callbacks, matchers
    and ignored types; only [newline_types] follows the order given. *)
Theorem Lexer_order_independent {E : Engine}
    (fuel : nat) (tokens tokens' : list TokenDef.t) (ignore : list string) (L : Lexer.t) :
  Permutation tokens tokens' ->
  NoDup (map TokenDef.name tokens) ->
  Lexer__init__ fuel tokens ignore = Ret L ->
  sort_tokens tokens = sort_tokens tokens'
  /\ exists L',
       Lexer__init__ fuel tokens' ignore = Ret L'
       /\ Lexer.tokens L' = Lexer.tokens L
       /\ Lexer.callback L' = Lexer.callback L
       /\ Lexer.mres L' = Lexer.mres L
       /\ Lexer.ignore_types L' = Lexer.ignore_types L
       /\ Permutation (Lexer.newline_types L) (Lexer.newline_types L').
Proof.
  intros Hp Hnd HL.
  assert (Hsort : sort_tokens tokens = sort_tokens tokens').
  { apply sorted_unique; try apply sort_tokens_sorted.
    - now rewrite <- !sort_tokens_perm.
    - assert (Hm : Permutation (map TokenDef.name tokens)
                     (map TokenDef.name (sort_tokens tokens)))
        by apply Permutation_map, sort_tokens_perm.
      now rewrite <- Hm. }
  split; [exact Hsort |].
  pose proof (Lexer__init___inv _ _ _ _ HL) as (Hs & Hig & Hnl & Hu & Hm).
  pose proof (Lexer__init___ignore_names fuel tokens ignore L HL) as Hin.
  exists (Lexer.mk ignore (newline_types_of tokens') ignore (Lexer.callback L)
            (Lexer.tokens L) (Lexer.mres L)).
  split; [| cbn; repeat split; auto; rewrite Hnl; now apply newline_types_of_perm].
  unfold Lexer__init__.
  rewrite sanitize_all.
  2:{ intros u Hu'. apply (sanitize_ok tokens); [exact Hs | now rewrite Hp]. }
  cbn [mbind outcome_bind].
  replace (forallb (fun n => str_in n (map TokenDef.name tokens')) ignore) with true.
  2:{ symmetry. apply forallb_forall. intros n Hn. apply str_in_iff.
      assert (Hm' : Permutation (map TokenDef.name tokens) (map TokenDef.name tokens'))
        by now apply Permutation_map.
      rewrite <- Hm'. apply Hin. now apply list_elem_of_In. }
  cbn [negb]. rewrite <- Hsort, Hu. cbn [mbind outcome_bind]. rewrite Hm.
  reflexivity.
Qed.

(** [IDENT] and [IF] in both orders, through the theorem. *)
Lemma Lexer_order_independent_witness :
  sort_tokens [IDENT; IF] = sort_tokens [IF; IDENT].
Proof.
  refine (proj1 (Lexer_order_independent (E := PyRe_engine) 10 [IDENT; IF] [IF; IDENT] []
                   (Lexer.mk [] [] [] {["IDENT" := [alternatives "$" [IF]]]} [IDENT]
                      [alternatives "" [IDENT]]) _ _ _)).
  - apply perm_swap.
  - apply (bool_decide_unpack _). vm_compute. exact I.
  - vm_compute; reflexivity.
Defined.

(** ** What [_create_unless] takes out and installs *)

Section UnlessFacts.
Context {E : Engine}.

(** Every entry of [callback] after the loop. *)
Lemma _create_unless_loop_keys fuel strtoks : forall retoks emb cb emb' cb' n m,
  _create_unless_loop fuel retoks strtoks emb cb = Ret (emb', cb') ->
  cb' !! n = Some m ->
  cb !! n = Some m
  \/ exists r, r ∈ retoks /\ TokenDef.name r = n
               /\ List.filter (accepts_whole r) strtoks <> []
               /\ build_mres fuel (List.filter (accepts_whole r) strtoks) true = Ret m.
Proof.
  induction retoks as [| r0 retoks IH]; intros emb cb emb' cb' n m H Hn.
  - cbn in H. injection H as <- <-. now left.
  - cbn in H.
    destruct (List.filter (accepts_whole r0) strtoks) as [| u unless] eqn:Hu.
    + destruct (IH _ _ _ _ _ _ H Hn) as [Hcb | (r & Hr & Hrest)]; [now left |].
      right. exists r. split; [apply elem_of_cons; now right | exact Hrest].
    + apply bind_Ret in H as (m0 & Hm0 & H).
      destruct (IH _ _ _ _ _ _ H Hn) as [Hcb | (r & Hr & Hrest)].
      * destruct (decide (TokenDef.name r0 = n)) as [Heq | Hne].
        -- subst n. rewrite lookup_insert_eq in Hcb. injection Hcb as <-.
           right. exists r0. split; [apply elem_of_cons; now left |].
           rewrite Hu. repeat split; auto.
        -- rewrite lookup_insert_ne in Hcb by exact Hne. now left.
      * right. exists r. split; [apply elem_of_cons; now right | exact Hrest].
Qed.

End UnlessFacts.

(** X9.  [_create_unless] keeps the tokens in their order and takes out
    exactly the literals that some regex token of the list accepts in
    whole with flags that include the literal's: no regex token is ever
    taken out, nor a literal that no regex accepts. *)
Theorem _create_unless_removes {E : Engine}
    (fuel : nat) (tokens tokens' : list TokenDef.t)
    (callback : gmap string (list CompiledMatcher)) :
  _create_unless fuel tokens = Ret (tokens', callback) ->
  tokens' `sublist_of` tokens
  /\ forall t, t ∈ tokens' <->
       t ∈ tokens
       /\ ~ (Pattern.class (TokenDef.pattern t) = PatternStr
             /\ exists r, r ∈ tokens
                  /\ Pattern.class (TokenDef.pattern r) = PatternRE
                  /\ accepts_whole r t = true
                  /\ Pattern.flags (TokenDef.pattern t)
                     ⊆ Pattern.flags (TokenDef.pattern r)).
Proof.
  intros H. split; [| now apply (_create_unless_kept fuel tokens tokens' callback)].
  apply _create_unless_inv in H as (emb & _ & ->). apply filter_sublist.
Qed.

(** [IDENT], [IF] and [WHITESPACE], through the theorem: [IF] is
    taken out, the two regex tokens stay. *)
Lemma _create_unless_removes_witness :
  [IDENT; WHITESPACE] `sublist_of` [IDENT; IF; WHITESPACE].
Proof.
  refine (proj1 (_create_unless_removes (E := PyRe_engine) 10
                   [IDENT; IF; WHITESPACE] [IDENT; WHITESPACE]
                   {["IDENT" := [alternatives "$" [IF]]]} _)).
  vm_compute; reflexivity.
Defined.

(** X10.  A callback is installed under a name only if a regex token of
    that name accepts some literal of the list in whole, and its probe
    holds, in order, literals which that regex token accepts in whole,
    each with [$] behind its expression. *)
Theorem _create_unless_callbacks {E : Engine}
    (fuel : nat) (tokens tokens' : list TokenDef.t)
    (callback : gmap string (list CompiledMatcher)) (n : string)
    (m : list CompiledMatcher) :
  _create_unless fuel tokens = Ret (tokens', callback) ->
  callback !! n = Some m ->
  exists r,
    r ∈ tokens
    /\ Pattern.class (TokenDef.pattern r) = PatternRE
    /\ TokenDef.name r = n
    /\ List.filter (accepts_whole r) (tokens_by_type tokens PatternStr) <> []
    /\ alternatives_of m
       `suffix_of` alternatives "$"
                     (List.filter (accepts_whole r) (tokens_by_type tokens PatternStr)).
Proof.
  intros H Hn. apply _create_unless_inv in H as (emb & Hloop & _).
  destruct (_create_unless_loop_keys _ _ _ _ _ _ _ _ _ Hloop Hn)
    as [Hcb | (r & Hr & Hname & Hne & Hb)]; [rewrite lookup_empty in Hcb; discriminate |].
  exists r. apply elem_of_List_filter in Hr as [Hr Hre].
  apply bool_decide_eq_true in Hre.
  repeat split; auto. now apply build_mres_suffix in Hb.
Qed.

(** The callback of [IDENT] in the list [IDENT; IF], through the
    theorem. *)
Lemma _create_unless_callbacks_witness :
  exists r,
    r ∈ [IDENT; IF]
    /\ Pattern.class (TokenDef.pattern r) = PatternRE
    /\ TokenDef.name r = "IDENT"
    /\ List.filter (accepts_whole r) (tokens_by_type [IDENT; IF] PatternStr) <> []
    /\ alternatives_of [alternatives "$" [IF]]
       `suffix_of` alternatives "$"
                     (List.filter (accepts_whole r) (tokens_by_type [IDENT; IF] PatternStr)).
Proof.
  refine (_create_unless_callbacks (E := PyRe_engine) 10 [IDENT; IF] [IDENT]
            {["IDENT" := [alternatives "$" [IF]]]} "IDENT" [alternatives "$" [IF]] _ _).
  - vm_compute; reflexivity.
  - vm_compute; reflexivity.
Defined.

(** ** [unless_callback] *)

(** X11.  The callback changes nothing of a token but its type; the new
    type is the old one or a name of its probe; and applying it again
    changes nothing more. *)
Theorem unless_callback_retypes {E : Engine}
    (mres : list CompiledMatcher) (t : Token.t) :
  let t' := unless_callback mres t in
  Token.value t' = Token.value t
  /\ Token.pos_in_stream t' = Token.pos_in_stream t
  /\ Token.line t' = Token.line t
  /\ Token.column t' = Token.column t
  /\ (Token.type t' = Token.type t
      \/ exists p, (Token.type t', p) ∈ alternatives_of mres
                   /\ exists v, re_match p (Token.value t) 0 = Some v)
  /\ unless_callback mres t' = t'.
Proof.
  unfold unless_callback.
  destruct (mres_match mres (Token.value t) 0) as [[v ty] |] eqn:Hm; cbn.
  - repeat split; auto.
    + right. rewrite mres_match_concat in Hm.
      apply mre_match_Some in Hm as (i & p & Hi & Hv & _).
      exists p. split; [eapply list_elem_of_lookup_2; exact Hi | eauto].
    + now rewrite Hm.
  - rewrite Hm. repeat split; auto.
Qed.

(** ** What [build_mres] returns *)

Section BuildShape.
Context {E : Engine}.

(** With a batch size of 0 the compiler cannot return. *)
Lemma _build_mres_zero_no_return fuel : forall tokens mw acc mres,
  tokens <> [] -> _build_mres fuel tokens 0 mw acc <> Ret mres.
Proof.
  induction fuel as [| fuel IH]; intros tokens mw acc mres Hne; [discriminate |].
  cbn [_build_mres]. destruct tokens as [| t tokens]; [congruence |].
  cbn [take drop]. change (0 / 2) with 0.
  destruct (re_compile _); [apply IH | apply IH | discriminate]; discriminate.
Qed.

(** No matcher is empty, and tokens or earlier matchers give a matcher. *)
Lemma _build_mres_nonempty fuel : forall tokens max_size mw acc mres,
  Forall (fun mre : CompiledMatcher => mre <> []) acc ->
  _build_mres fuel tokens max_size mw acc = Ret mres ->
  Forall (fun mre : CompiledMatcher => mre <> []) mres
  /\ (tokens <> [] \/ acc <> [] -> mres <> []).
Proof.
  induction fuel as [| fuel IH]; intros tokens max_size mw acc mres Hacc;
    [discriminate |].
  cbn [_build_mres]. destruct tokens as [| t tokens].
  { intros [= <-]. split; [exact Hacc | intros [Hn | Hn]; congruence]. }
  destruct (re_compile _) eqn:Hc; [| | discriminate]; intros H.
  - destruct max_size as [| max_size].
    + exfalso. eapply _build_mres_zero_no_return; [| exact H]. discriminate.
    + assert (Hacc' : Forall (fun mre : CompiledMatcher => mre <> [])
                        (acc ++ [alternatives (postfix_of mw)
                                   (take (S max_size) (t :: tokens))])).
      { apply Forall_app. split; [exact Hacc |].
        constructor; [discriminate | constructor]. }
      destruct (IH _ _ _ _ _ Hacc' H) as [Hall Hne].
      split; [exact Hall |]. intros _. apply Hne. right.
      intros Hnil. apply app_eq_nil in Hnil as [_ Hnil]. discriminate.
  - destruct (IH _ _ _ _ _ (Forall_nil_2 _) H) as [Hall Hne].
    split; [exact Hall |]. intros _. apply Hne. left. discriminate.
Qed.

End BuildShape.

(** X12.  Whatever the engine refuses, when [build_mres] returns, the
    alternatives of its matchers, in matcher order, are the end of the
    token list in its order (tokens can only be missing from the
    front), no matcher is empty, and a non-empty token list gives at
    least one matcher. *)
Theorem build_mres_shape {E : Engine}
    (fuel : nat) (tokens : list TokenDef.t) (match_whole : bool)
    (mres : list CompiledMatcher) :
  build_mres fuel tokens match_whole = Ret mres ->
  alternatives_of mres `suffix_of` alternatives (postfix_of match_whole) tokens
  /\ Forall (fun mre : CompiledMatcher => mre <> []) mres
  /\ (tokens <> [] -> mres <> []).
Proof.
  intros H. split; [now apply build_mres_suffix in H |].
  apply _build_mres_nonempty in H; [| constructor].
  destruct H as [Ha Hn]. split; [exact Ha | intros Ht; apply Hn; now left].
Qed.

(** The four tokens [G1 G2 G3 G4], through the theorem. *)
Lemma build_mres_shape_witness :
  alternatives_of [alternatives "" [G3]; alternatives "" [G4]]
  `suffix_of` alternatives "" [G1; G2; G3; G4].
Proof.
  refine (proj1 (build_mres_shape (E := PyRe_engine) 10 [G1; G2; G3; G4] false
                   [alternatives "" [G3]; alternatives "" [G4]] _)).
  vm_compute; reflexivity.
Defined.

(** ** [build_mres] when only the size of a batch counts *)

(** X13.  If, among the runs of consecutive tokens of the list, the
    engine refuses exactly those of more than [c] tokens (with [c] at
    least 1), then [build_mres] returns within twice the length of the
    list in fuel, its matchers hold every token in order, each matcher
    holds between 1 and [c] of them, and matching against the matchers
    is matching against the one disjunction of all tokens. *)
Theorem build_mres_under_ceiling {E : Engine}
    (c : nat) (tokens : list TokenDef.t) (match_whole : bool) (fuel : nat) :
  1 <= c ->
  (forall i n,
     re_compile (joined (postfix_of match_whole) (take n (drop i tokens)))
     = if (length (take n (drop i tokens)) <=? c)%nat
       then Compiled else TooManyGroups) ->
  2 * length tokens < fuel ->
  exists mres,
    build_mres fuel tokens match_whole = Ret mres
    /\ alternatives_of mres = alternatives (postfix_of match_whole) tokens
    /\ Forall (fun mre : CompiledMatcher => 1 <= length mre <= c) mres
    /\ forall s pos,
         mres_match mres s pos
         = mre_match (alternatives (postfix_of match_whole) tokens) s pos.
Proof. intros Hc Hceil. now apply build_mres_uniform. Qed.

(** Five literals on an engine with a ceiling of 3 groups, which takes
    two named groups at a time, through the theorem. *)
Lemma build_mres_under_ceiling_witness :
  exists mres,
    build_mres (E := PyRe_under 3) 11 five_literals false = Ret mres
    /\ alternatives_of mres = alternatives "" five_literals
    /\ Forall (fun mre : CompiledMatcher => 1 <= length mre <= 2) mres
    /\ forall s pos,
         mres_match (E := PyRe_under 3) mres s pos
         = mre_match (E := PyRe_under 3) (alternatives "" five_literals) s pos.
Proof.
  refine (build_mres_under_ceiling (E := PyRe_under 3) 2 five_literals false 11 _ _ _).
  - lia.
  - intros i n.
    do 6 (try destruct i as [| i]); do 6 (try destruct n as [| n]);
      vm_compute; reflexivity.
  - cbn; lia.
Defined.

(** ** The sessions of a contextual lexer *)

Section ContextualSession.
Context {E : Engine} (laws : EngineLaws E).
Variables (fuel : nat) (stream : string).

Lemma ContextualLexer_lex_next_loop (self : ContextualLexer.t) c lexer :
  current_lexer self = Some lexer ->
  ContextualLexer_lex_next fuel self stream c
  = pass_on (_Lex.mk lexer)
      (_Lex_loop fuel (_Lex.mk lexer) stream
         (Lexer.newline_types (ContextualLexer.root_lexer self))
         (Lexer.ignore_types (ContextualLexer.root_lexer self))
         (ctx_resume_ctr (Lexer.newline_types (ContextualLexer.root_lexer self)) c)).
Proof.
  intros Hc. unfold ContextualLexer_lex_next. rewrite Hc.
  destruct c as [| l [| lc v ty]]; reflexivity.
Qed.

Variable parser : list Token.t -> option nat.

Lemma ContextualLexer_lex_from_trace n : forall self seen c ts e,
  ContextualLexer_lex_from fuel n self stream parser seen c = (ts, e) ->
  Forall (fun t =>
            LineCounter.char_pos
              (ctx_resume_ctr (Lexer.newline_types (ContextualLexer.root_lexer self)) c)
            <= Token.pos_in_stream t
            /\ substring (Token.pos_in_stream t) (String.length (Token.value t)) stream
               = Token.value t) ts
  /\ StronglySorted
       (fun t u => Token.pos_in_stream t + String.length (Token.value t)
                   <= Token.pos_in_stream u) ts.
Proof.
  induction n as [| n IH]; intros self seen c ts e; cbn [ContextualLexer_lex_from];
    [intros [= <- _]; split; constructor |].
  set (self' := ContextualLexer.set_parser_state self (parser seen)).
  destruct (current_lexer self') as [lexer |] eqn:Hcur.
  2:{ unfold ContextualLexer_lex_next. rewrite Hcur.
      intros [= <- _]; split; constructor. }
  rewrite (ContextualLexer_lex_next_loop self' c lexer Hcur).
  change (ContextualLexer.root_lexer self') with (ContextualLexer.root_lexer self).
  set (nl := Lexer.newline_types (ContextualLexer.root_lexer self)).
  set (ig := Lexer.ignore_types (ContextualLexer.root_lexer self)).
  pose proof (_Lex_loop_sound lexer stream nl ig fuel (ctx_resume_ctr nl c)) as Hs.
  destruct (_Lex_loop fuel (_Lex.mk lexer) stream nl ig (ctx_resume_ctr nl c))
    as [t g' | | e' | e' |]; cbn [pass_on];
    try (intros [= <- _]; split; constructor).
  destruct (ContextualLexer_lex_from fuel n self' stream parser (seen ++ [t])
              (CtxSuspended (_Lex.mk lexer) g')) as [ts' e''] eqn:Hrec.
  intros [= <- _]. apply IH in Hrec as [Hpos Hsorted].
  change (ContextualLexer.root_lexer self') with (ContextualLexer.root_lexer self) in Hpos.
  fold nl in Hpos.
  destruct Hs as (k & lc & v & ty & Hk & -> & Hm & Hig & ->).
  apply advance_n_le in Hk.
  cbn [ctx_resume_ctr resume_ctr] in Hpos. rewrite Forall_forall in Hpos.
  destruct (apply_callback_position lexer
              (Token.mk ty v (LineCounter.char_pos lc) (LineCounter.line lc)
                 (LineCounter.column lc))) as (Hp & _ & _).
  cbn [Token.pos_in_stream] in Hp.
  assert (Hval : Token.value (apply_callback lexer
                   (Token.mk ty v (LineCounter.char_pos lc) (LineCounter.line lc)
                      (LineCounter.column lc))) = v)
    by now rewrite apply_callback_value.
  split.
  - constructor.
    + split; [rewrite Hp; exact Hk |]. rewrite Hp, Hval.
      rewrite mres_match_concat in Hm.
      apply mre_match_Some in Hm as (i & p & _ & Hv & _).
      destruct (re_match_slice E laws _ _ _ _ Hv) as [rest Hrest].
      now rewrite substring_from, Hrest, substring_prefix.
    + apply Forall_forall. intros t' Ht'. destruct (Hpos _ Ht') as [Hle Hsl].
      rewrite feed_char_pos in Hle. split; [lia | exact Hsl].
  - constructor; [exact Hsorted |].
    apply Forall_forall. intros t' Ht'. destruct (Hpos _ Ht') as [Hle _].
    rewrite feed_char_pos in Hle. rewrite Hp, Hval. lia.
Qed.

Variable lexers : gmap nat Lexer.t.
Hypothesis nonempty : forall st lexer n p,
  lexers !! st = Some lexer ->
  (n, p) ∈ alternatives_of (Lexer.mres lexer) ->
  forall s pos, re_match p s pos <> Some "".

Lemma ContextualLexer_lex_from_terminates n : forall self seen c,
  ContextualLexer.lexers self = lexers ->
  LineCounter.char_pos
    (ctx_resume_ctr (Lexer.newline_types (ContextualLexer.root_lexer self)) c)
  <= String.length stream ->
  String.length stream
  - LineCounter.char_pos
      (ctx_resume_ctr (Lexer.newline_types (ContextualLexer.root_lexer self)) c) < n ->
  String.length stream
  - LineCounter.char_pos
      (ctx_resume_ctr (Lexer.newline_types (ContextualLexer.root_lexer self)) c) < fuel ->
  exists ts e,
    ContextualLexer_lex_from fuel n self stream parser seen c = (ts, e)
    /\ (e = Done \/ (exists err, e = LexicalError err) \/ e = OtherError KeyError)
    /\ Forall (fun t => 1 <= String.length (Token.value t)) ts.
Proof.
  induction n as [| n IH]; intros self seen c Hlx Hle Hn Hfuel; [lia |].
  cbn [ContextualLexer_lex_from].
  set (self' := ContextualLexer.set_parser_state self (parser seen)).
  destruct (current_lexer self') as [lexer |] eqn:Hcur.
  2:{ unfold ContextualLexer_lex_next. rewrite Hcur.
      exists [], (OtherError KeyError). auto. }
  assert (Hne : forall n0 p, (n0, p) ∈ alternatives_of (Lexer.mres lexer) ->
                  forall s pos, re_match p s pos <> Some "").
  { unfold current_lexer in Hcur. cbn in Hcur.
    destruct (parser seen) as [st |]; cbn in Hcur; [| discriminate].
    rewrite Hlx in Hcur. intros n0 p. now apply (nonempty st). }
  rewrite (ContextualLexer_lex_next_loop self' c lexer Hcur).
  change (ContextualLexer.root_lexer self') with (ContextualLexer.root_lexer self).
  set (nl := Lexer.newline_types (ContextualLexer.root_lexer self)) in *.
  set (ig := Lexer.ignore_types (ContextualLexer.root_lexer self)).
  pose proof (_Lex_loop_sound lexer stream nl ig fuel (ctx_resume_ctr nl c)) as Hs.
  pose proof (_Lex_loop_stops laws lexer stream nl ig Hne fuel _ Hfuel) as Hstop.
  destruct (_Lex_loop fuel (_Lex.mk lexer) stream nl ig (ctx_resume_ctr nl c))
    as [t g' | | e' | e' |]; cbn [pass_on].
  - destruct Hs as (k & lc & v & ty & Hk & -> & Hm & _ & ->).
    apply (advance_n_bounds laws lexer stream _ Hne) in Hk as [Hk1 Hk2]; [| exact Hle].
    apply (match_bounds laws lexer stream Hne) in Hm as [Hv1 Hv2].
    destruct (IH self' (seen ++ [apply_callback lexer
                                  (Token.mk ty v (LineCounter.char_pos lc)
                                     (LineCounter.line lc) (LineCounter.column lc))])%list
                (CtxSuspended (_Lex.mk lexer) (LexSuspended lc v ty)))
      as (ts & e & Hrec & He & Hall);
      try (cbn [ctx_resume_ctr resume_ctr ContextualLexer.root_lexer
                ContextualLexer.set_parser_state self'];
           rewrite feed_char_pos; fold nl; lia).
    { exact Hlx. }
    rewrite Hrec. eexists _, e. split; [reflexivity |]. split; [exact He |].
    constructor; [| exact Hall]. now rewrite apply_callback_value.
  - exists [], Done. auto.
  - exists [], (LexicalError e'). split; [reflexivity |]. split; [eauto | constructor].
  - contradiction.
  - congruence.
Qed.

End ContextualSession.

(** X14.  Whatever the parser does with the state, every token of a
    session of [ContextualLexer.lex] carries the text of the stream at
    its offset, and the tokens come in the order of their offsets
    without overlapping. *)
Theorem contextual_tokens_are_slices {E : Engine} (laws : EngineLaws E)
    (self : ContextualLexer.t) (stream : string) (parser : list Token.t -> option nat)
    (fuel n : nat) (ts : list Token.t) (e : ending) :
  ContextualLexer_lex_from fuel n self stream parser [] CtxStart = (ts, e) ->
  Forall (fun t => substring (Token.pos_in_stream t) (String.length (Token.value t))
                     stream = Token.value t) ts
  /\ StronglySorted
       (fun t u => Token.pos_in_stream t + String.length (Token.value t)
                   <= Token.pos_in_stream u) ts.
Proof.
  intros H. apply (ContextualLexer_lex_from_trace laws) in H as [Hall Hsorted].
  split; [| exact Hsorted].
  eapply Forall_impl; [exact Hall |]. now intros t [_ Ht].
Qed.

(** The two-state lexer on [ab], state 1 first and state 2 after the
    first token, through the theorem. *)
Lemma contextual_tokens_are_slices_witness :
  Forall (fun t => substring (Token.pos_in_stream t) (String.length (Token.value t))
                     "ab" = Token.value t)
    [Token.mk "A" "a" 0 1 0; Token.mk "B" "b" 1 1 1].
Proof.
  refine (proj1 (contextual_tokens_are_slices PyRe_laws two_state_lexer "ab"
                   (fun seen => match seen with [] => Some 1 | _ => Some 2 end)
                   10 10 [Token.mk "A" "a" 0 1 0; Token.mk "B" "b" 1 1 1] Done _)).
  vm_compute; reflexivity.
Defined.

(** X15.  If no alternative of the lexers of a contextual lexer matches
    the empty string, a consumer with more fuel than the input is long
    gets the whole sequence, whatever the parser does with the state:
    the session ends in [Done], in a lexical error, or in the
    [KeyError] of a state without lexer, and holds no empty token. *)
Theorem contextual_lexing_terminates {E : Engine} (laws : EngineLaws E)
    (self : ContextualLexer.t) (stream : string) (parser : list Token.t -> option nat)
    (fuel n : nat) :
  (forall st lexer name p,
     ContextualLexer.lexers self !! st = Some lexer ->
     (name, p) ∈ alternatives_of (Lexer.mres lexer) ->
     forall s pos, re_match p s pos <> Some "") ->
  String.length stream < n ->
  String.length stream < fuel ->
  exists ts e,
    ContextualLexer_lex_from fuel n self stream parser [] CtxStart = (ts, e)
    /\ (e = Done \/ (exists err, e = LexicalError err) \/ e = OtherError KeyError)
    /\ Forall (fun t => 1 <= String.length (Token.value t)) ts.
Proof.
  intros Hne Hn Hfuel.
  apply (ContextualLexer_lex_from_terminates laws fuel stream parser
           (ContextualLexer.lexers self) Hne); cbn; auto with lia.
Qed.

(** The two-state lexer on [ab] with a parser that stays in state 1,
    through the theorem. *)
Lemma contextual_lexing_terminates_witness :
  exists ts e,
    ContextualLexer_lex_from 10 10 two_state_lexer "ab" (fun _ => Some 1) [] CtxStart
    = (ts, e)
    /\ (e = Done \/ (exists err, e = LexicalError err) \/ e = OtherError KeyError)
    /\ Forall (fun t => 1 <= String.length (Token.value t)) ts.
Proof.
  refine (contextual_lexing_terminates PyRe_laws two_state_lexer "ab" (fun _ => Some 1)
            10 10 _ _ _).
  - intros st lexer name p Hl Hin.
    unfold two_state_lexer in Hl. cbn [ContextualLexer.lexers] in Hl.
    apply lookup_insert_Some in Hl as [[_ <-] | [_ Hl]];
      [| apply lookup_singleton_Some in Hl as [_ <-]];
      apply list_elem_of_singleton in Hin; injection Hin as -> ->;
      (eapply PyRe_no_empty_match; [vm_compute; reflexivity | cbn; lia]).
  - cbn; lia.
  - cbn; lia.
Defined.

(** ** [ContextualLexer.__init__] *)

Example two_state_lexer_built :
  ContextualLexer__init__ every_name 10 [TA; TB] two_states [] [] = Ret two_state_lexer.
Proof. vm_compute; reflexivity. Qed.

(** The first loop returns a table of the tokens by their names, which
    are then unique. *)
Lemma tokens_by_name_of_Ret tokens : forall m0 m,
  tokens_by_name_of tokens m0 = Ret m ->
  NoDup (map TokenDef.name tokens)
  /\ (forall t, t ∈ tokens -> m0 !! TokenDef.name t = None)
  /\ (forall n t, m !! n = Some t
                  <-> (t ∈ tokens /\ TokenDef.name t = n) \/ m0 !! n = Some t).
Proof.
  induction tokens as [| t0 tokens IH]; intros m0 m; cbn [tokens_by_name_of map].
  - intros [= <-]. split; [constructor |]. split.
    + intros t Ht. now apply elem_of_nil in Ht.
    + intros n t. split; [now right |].
      intros [[Ht _] | H]; [now apply elem_of_nil in Ht | exact H].
  - destruct (m0 !! TokenDef.name t0) eqn:H0; [discriminate |].
    intros H. apply IH in H as (Hnd & Hfresh & Hm).
    assert (Hnot : TokenDef.name t0 ∉ map TokenDef.name tokens).
    { intros Hin. apply list_elem_of_fmap in Hin as (t & Hn & Ht).
      specialize (Hfresh t Ht). rewrite <- Hn, lookup_insert_eq in Hfresh.
      discriminate. }
    split; [now constructor |]. split.
    + intros t Ht. apply elem_of_cons in Ht as [-> | Ht]; [exact H0 |].
      specialize (Hfresh t Ht). now apply lookup_insert_None in Hfresh.
    + intros n t. rewrite Hm, lookup_insert_Some, elem_of_cons. split.
      * intros [[Ht Hn] | [[Hn Ht] | [Hn Ht]]]; auto. subst. auto.
      * intros [[[-> | Ht] Hn] | Hn]; auto.
        destruct (decide (TokenDef.name t0 = n)) as [Heq | Hne]; auto.
        subst n. congruence.
Qed.

Lemma tokens_by_name_of_cases tokens : forall m0,
  tokens_by_name_of tokens m0 = Raise AssertionError
  \/ exists m, tokens_by_name_of tokens m0 = Ret m.
Proof.
  induction tokens as [| t0 tokens IH]; intros m0; cbn [tokens_by_name_of];
    [right; eauto |].
  destruct (m0 !! TokenDef.name t0); [now left | apply IH].
Qed.

(** X16.  Two tokens of the same name make [ContextualLexer.__init__]
    fail with an [AssertionError], before any pattern is looked at:
    whatever the states, the ignore list and the patterns. *)
Theorem ContextualLexer_unique_names {E : Engine} (is_terminal : string -> bool)
    (fuel : nat) (tokens : list TokenDef.t) (states : list (nat * list string))
    (ignore always_accept : list string) :
  ~ NoDup (map TokenDef.name tokens) ->
  ContextualLexer__init__ is_terminal fuel tokens states ignore always_accept
  = Raise AssertionError.
Proof.
  intros Hdup. unfold ContextualLexer__init__.
  destruct (tokens_by_name_of_cases tokens ∅) as [-> | [m Hm]]; [reflexivity |].
  apply tokens_by_name_of_Ret in Hm as [Hnd _]. contradiction.
Qed.

(** [A_if] and [TA] are both named [A]; [BROKEN] does not compile and
    [WHITESPACE] is no token. *)
Lemma ContextualLexer_unique_names_witness :
  ContextualLexer__init__ (E := PyRe_engine) every_name 10 [A_if; BROKEN; TA] two_states
    ["WHITESPACE"] []
  = Raise AssertionError.
Proof.
  refine (ContextualLexer_unique_names (E := PyRe_engine) every_name 10
            [A_if; BROKEN; TA] two_states ["WHITESPACE"] [] _).
  intros H. apply NoDup_cons in H as [H _]. apply H.
  apply elem_of_cons. right. apply elem_of_cons. now left.
Defined.

Section ContextualInit.
Context {E : Engine}.
Variable is_terminal : string -> bool.

(** The tokens of a state: those of the table under the accepted names
    that are terminals and not [$END], in the order of the names. *)
Lemma state_tokens_of_Ret (m : gmap string TokenDef.t) accepts : forall ts,
  (forall n t, m !! n = Some t -> TokenDef.name t = n) ->
  state_tokens_of is_terminal m accepts = Ret ts ->
  map TokenDef.name ts
  = List.filter (fun n => is_terminal n && negb (String.eqb n "$END")) accepts
  /\ Forall (fun t => m !! TokenDef.name t = Some t) ts.
Proof.
  intros ts Hname. revert ts.
  induction accepts as [| n accepts IH]; intros ts; cbn [state_tokens_of List.filter].
  - intros [= <-]. split; [reflexivity | constructor].
  - destruct (is_terminal n && negb (String.eqb n "$END")); [| apply IH].
    destruct (m !! n) as [t |] eqn:Hn; [| discriminate].
    intros H. apply bind_Ret in H as (ts' & H & [= <-]).
    apply IH in H as [Hmap Hall]. pose proof (Hname _ _ Hn) as Ht.
    split; [cbn; now rewrite Hmap, Ht | constructor; [now rewrite Ht | exact Hall]].
Qed.

Variables (fuel : nat) (ignore always_accept : list string)
  (tokens_by_name : gmap string TokenDef.t).

(** The loop over the states: every state of the items gets a lexer,
    and every lexer was built for the accepted names of an item of its
    state, be it taken from [lexer_by_tokens] or not. *)
Lemma states_loop_inv : forall items cache lexers res,
  (forall key lx, cache !! key = Some lx ->
     exists ts,
       state_tokens_of is_terminal tokens_by_name
         (elements (key ∪ list_to_set ignore ∪ list_to_set always_accept)) = Ret ts
       /\ Lexer__init__ fuel ts ignore = Ret lx) ->
  states_loop is_terminal fuel items ignore always_accept tokens_by_name cache lexers
  = Ret res ->
  (forall st, st ∈ map fst items -> is_Some (res !! st))
  /\ (forall st, st ∉ map fst items -> res !! st = lexers !! st)
  /\ (forall st lx, res !! st = Some lx ->
        lexers !! st = Some lx
        \/ exists accepts ts,
             (st, accepts) ∈ items
             /\ state_tokens_of is_terminal tokens_by_name
                  (elements (list_to_set accepts ∪ list_to_set ignore
                             ∪ list_to_set always_accept : gset string)) = Ret ts
             /\ Lexer__init__ fuel ts ignore = Ret lx).
Proof.
  induction items as [| [state accepts] items IH]; intros cache lexers res Hcache;
    cbn [states_loop map fst].
  - intros [= <-]. split; [intros st Hst; now apply elem_of_nil in Hst |].
    split; [reflexivity | auto].
  - intros H.
    assert (Hstep : exists lexer cache',
               (exists ts,
                  state_tokens_of is_terminal tokens_by_name
                    (elements (list_to_set accepts ∪ list_to_set ignore
                               ∪ list_to_set always_accept : gset string)) = Ret ts
                  /\ Lexer__init__ fuel ts ignore = Ret lexer)
               /\ (forall key lx, cache' !! key = Some lx ->
                     exists ts,
                       state_tokens_of is_terminal tokens_by_name
                         (elements (key ∪ list_to_set ignore
                                    ∪ list_to_set always_accept)) = Ret ts
                       /\ Lexer__init__ fuel ts ignore = Ret lx)
               /\ states_loop is_terminal fuel items ignore always_accept
                    tokens_by_name cache' (<[state := lexer]> lexers) = Ret res).
    { destruct (cache !! list_to_set accepts) as [lexer |] eqn:Hhit.
      - exists lexer, cache. split; [now apply Hcache | auto].
      - apply bind_Ret in H as (ts & Hts & H).
        apply bind_Ret in H as (lexer & Hlx & H).
        exists lexer, (<[list_to_set accepts := lexer]> cache).
        split; [eauto |]. split; [| exact H].
        intros key lx Hk. apply lookup_insert_Some in Hk as [[<- <-] | [_ Hk]]; eauto. }
    clear H. destruct Hstep as (lexer & cache' & Hbuilt & Hcache' & H).
    apply IH in H as (Hdom & Hout & Hin); [| exact Hcache'].
    split; [| split].
    + intros st Hst.
      destruct (decide (st ∈ map fst items)) as [Hi | Hni]; [now apply Hdom |].
      apply elem_of_cons in Hst as [-> | Hst]; [| contradiction].
      rewrite (Hout _ Hni), lookup_insert_eq. eauto.
    + intros st Hst. apply not_elem_of_cons in Hst as [Hne Hst].
      rewrite (Hout _ Hst). now apply lookup_insert_ne.
    + intros st lx Hlx. apply Hin in Hlx as [Hlx | (acc' & ts & Hi & Hb)].
      * apply lookup_insert_Some in Hlx as [[<- <-] | [_ Hlx]]; [| now left].
        right. destruct Hbuilt as (ts & Hts & Hl).
        exists accepts, ts. split; [apply elem_of_cons; now left | auto].
      * right. exists acc', ts. split; [apply elem_of_cons; now right | auto].
Qed.

End ContextualInit.

Section ContextualInitFacts.
Context {E : Engine}.
Variables (is_terminal : string -> bool) (fuel : nat)
  (tokens : list TokenDef.t) (states : list (nat * list string))
  (ignore always_accept : list string) (cl : ContextualLexer.t).

(** What [ContextualLexer.__init__] has done when it returns. *)
Lemma ContextualLexer__init___inv :
  ContextualLexer__init__ is_terminal fuel tokens states ignore always_accept = Ret cl ->
  exists m,
    tokens_by_name_of tokens ∅ = Ret m
    /\ states_loop is_terminal fuel states ignore always_accept m ∅ ∅
       = Ret (ContextualLexer.lexers cl)
    /\ Lexer__init__ fuel tokens ignore = Ret (ContextualLexer.root_lexer cl)
    /\ ContextualLexer.parser_state cl = None.
Proof.
  unfold ContextualLexer__init__. intros H.
  apply bind_Ret in H as (m & Hm & H).
  apply bind_Ret in H as (lexers & Hl & H).
  apply bind_Ret in H as (root & Hroot & [= <-]).
  exists m. cbn. auto.
Qed.

(** The states that have a lexer are the declared ones. *)
Lemma ContextualLexer_lexers_dom :
  ContextualLexer__init__ is_terminal fuel tokens states ignore always_accept = Ret cl ->
  forall st, is_Some (ContextualLexer.lexers cl !! st) <-> st ∈ map fst states.
Proof.
  intros H. apply ContextualLexer__init___inv in H as (m & _ & Hl & _).
  apply states_loop_inv in Hl as (Hdom & Hout & _).
  2:{ intros key lx Hk. now rewrite lookup_empty in Hk. }
  intros st. split; [| apply Hdom].
  intros Hsome. destruct (decide (st ∈ map fst states)) as [Hi | Hni]; [exact Hi |].
  rewrite (Hout _ Hni), lookup_empty in Hsome. now destruct Hsome.
Qed.

End ContextualInitFacts.

(** X17.  A contextual lexer that was constructed has no parser state
    yet, the lexer of all the tokens as its root lexer, and a lexer for
    each declared state and for no other.  The lexer of a state is what
    [Lexer] builds, with the same ignore list, from tokens of the list
    given, of unique names: the names that the state accepts, that are
    ignored or that are always accepted, as far as they are terminals
    other than [$END]. *)
Theorem ContextualLexer_state_lexers {E : Engine} (is_terminal : string -> bool)
    (fuel : nat) (tokens : list TokenDef.t) (states : list (nat * list string))
    (ignore always_accept : list string) (cl : ContextualLexer.t) :
  ContextualLexer__init__ is_terminal fuel tokens states ignore always_accept = Ret cl ->
  ContextualLexer.parser_state cl = None
  /\ Lexer__init__ fuel tokens ignore = Ret (ContextualLexer.root_lexer cl)
  /\ (forall st, is_Some (ContextualLexer.lexers cl !! st) <-> st ∈ map fst states)
  /\ (forall st lexer, ContextualLexer.lexers cl !! st = Some lexer ->
        exists accepts state_tokens,
          (st, accepts) ∈ states
          /\ Lexer__init__ fuel state_tokens ignore = Ret lexer
          /\ NoDup (map TokenDef.name state_tokens)
          /\ (forall t, t ∈ state_tokens -> t ∈ tokens)
          /\ (forall n, n ∈ map TokenDef.name state_tokens
                        <-> (n ∈ accepts \/ n ∈ ignore \/ n ∈ always_accept)
                            /\ is_terminal n = true /\ n <> "$END")).
Proof.
  intros H.
  pose proof (ContextualLexer_lexers_dom _ _ _ _ _ _ _ H) as Hdomain.
  apply ContextualLexer__init___inv in H as (m & Hm & Hl & Hroot & Hstate).
  apply tokens_by_name_of_Ret in Hm as (_ & _ & Hm).
  assert (Hname : forall n t, m !! n = Some t -> TokenDef.name t = n).
  { intros n t Hn.
    apply Hm in Hn as [[_ Hn] | Hn]; [exact Hn | now rewrite lookup_empty in Hn]. }
  apply states_loop_inv in Hl as (_ & _ & Hin).
  2:{ intros key lx Hk. now rewrite lookup_empty in Hk. }
  split; [exact Hstate |]. split; [exact Hroot |]. split; [exact Hdomain |].
  intros st lexer Hst. apply Hin in Hst as [Hst | (accepts & ts & Hi & Hts & Hlx)];
    [now rewrite lookup_empty in Hst |].
  exists accepts, ts. split; [exact Hi |]. split; [exact Hlx |].
  apply (state_tokens_of_Ret is_terminal m _ _ Hname) in Hts as [Hmap Hall].
  split; [| split].
  - rewrite Hmap.
    apply NoDup_ListNoDup, List.NoDup_filter, NoDup_ListNoDup, NoDup_elements.
  - intros t Ht. rewrite Forall_forall in Hall. specialize (Hall t Ht).
    apply Hm in Hall as [[Ht' _] | Hall]; [exact Ht' | now rewrite lookup_empty in Hall].
  - intros n. rewrite Hmap, elem_of_List_filter, elem_of_elements, !elem_of_union,
      !elem_of_list_to_set, andb_true_iff, negb_true_iff, String.eqb_neq.
    tauto.
Qed.

(** The two-state lexer, through the theorem: state 2 has a lexer,
    built from [TB] alone. *)
Lemma ContextualLexer_state_lexers_witness :
  ContextualLexer.parser_state two_state_lexer = None
  /\ exists accepts state_tokens,
       (2, accepts) ∈ two_states
       /\ Lexer__init__ 10 state_tokens [] = Ret TB_lexer
       /\ forall t, t ∈ state_tokens -> t ∈ [TA; TB].
Proof.
  pose proof (ContextualLexer_state_lexers (E := PyRe_engine) every_name 10 [TA; TB]
                two_states [] [] two_state_lexer) as H.
  destruct H as (H1 & _ & _ & H4); [vm_compute; reflexivity |].
  split; [exact H1 |].
  destruct (H4 2 TB_lexer) as (accepts & ts & Hi & Hl & _ & Hsub & _);
    [vm_compute; reflexivity |].
  exists accepts, ts. auto.
Defined.

(** X18.  A contextual lexer fresh from its constructor cannot lex:
    every request fails with a [KeyError] as long as no parser state
    has been set, and so does a request in a state that was not
    declared; in a declared state a request yields a token, ends the
    sequence, raises a lexical error or runs out of fuel, and raises
    nothing else. *)
Theorem ContextualLexer_state_required {E : Engine} (is_terminal : string -> bool)
    (fuel : nat) (tokens : list TokenDef.t) (states : list (nat * list string))
    (ignore always_accept : list string) (cl : ContextualLexer.t) :
  ContextualLexer__init__ is_terminal fuel tokens states ignore always_accept = Ret cl ->
  forall fuel' stream c,
    ContextualLexer_lex_next fuel' cl stream c = Failed KeyError
    /\ (forall st, st ∉ map fst states ->
          ContextualLexer_lex_next fuel'
            (ContextualLexer.set_parser_state cl (Some st)) stream c
          = Failed KeyError)
    /\ (forall st e, st ∈ map fst states ->
          ContextualLexer_lex_next fuel'
            (ContextualLexer.set_parser_state cl (Some st)) stream c
          <> Failed e).
Proof.
  intros H fuel' stream c.
  pose proof (ContextualLexer_lexers_dom _ _ _ _ _ _ _ H) as Hdomain.
  apply ContextualLexer__init___inv in H as (_ & _ & _ & _ & Hstate).
  split; [| split].
  - unfold ContextualLexer_lex_next, current_lexer. now rewrite Hstate.
  - intros st Hst. unfold ContextualLexer_lex_next, current_lexer. cbn.
    destruct (ContextualLexer.lexers cl !! st) as [lexer |] eqn:Hl; [| reflexivity].
    exfalso. apply Hst, Hdomain. eauto.
  - intros st e Hst. apply Hdomain in Hst as [lexer Hl].
    rewrite (ContextualLexer_lex_next_loop fuel' stream _ c lexer) by exact Hl.
    match goal with
    | |- pass_on _ (_Lex_loop ?f ?l ?s ?nl ?ig ?lc) <> _ =>
        pose proof (_Lex_loop_sound lexer s nl ig f lc) as Hs;
        destruct (_Lex_loop f l s nl ig lc)
    end; cbn [pass_on]; try discriminate. contradiction.
Qed.

(** The two-state lexer before any state is set, through the theorem. *)
Lemma ContextualLexer_state_required_witness :
  ContextualLexer_lex_next 10 two_state_lexer "a" CtxStart = Failed KeyError.
Proof.
  refine (proj1 (ContextualLexer_state_required (E := PyRe_engine) every_name 10
                   [TA; TB] two_states [] [] two_state_lexer _ 10 "a" CtxStart)).
  vm_compute; reflexivity.
Defined.

(** ** Where a lexical error is raised *)

Lemma substring_length (s : string) : forall pos n,
  String.length (substring pos n s) = Nat.min n (String.length s - pos).
Proof.
  induction s as [| c s IH]; intros [| pos] [| n]; cbn [substring String.length];
    try reflexivity.
  - now rewrite IH, Nat.sub_0_r.
  - now rewrite IH.
  - now rewrite IH.
Qed.

(** X19.  The error that ends a session of [Lexer.lex] is built within
    the stream: at an offset before its end where no matcher matches,
    with the character at that offset and a context of the one to five
    characters from there on, and without [allowed]; and if every match
    whose type is not in [newline_types] holds no newline, its line and
    column are those of the offset. *)
Theorem lexical_error_located {E : Engine} (laws : EngineLaws E)
    (L : Lexer.t) (stream : string) (fuel : nat) (ts : list Token.t)
    (err : UnexpectedInput.t) :
  Lexer_lex fuel L stream = (ts, LexicalError err) ->
  exists pos,
    pos < String.length stream
    /\ mres_match (Lexer.mres L) stream pos = None
    /\ UnexpectedInput.char err = substring pos 1 stream
    /\ String.length (UnexpectedInput.char err) = 1
    /\ UnexpectedInput.context err = substring pos 5 stream
    /\ 1 <= String.length (UnexpectedInput.context err) <= 5
    /\ UnexpectedInput.allowed err = None
    /\ ((forall p v ty,
           mres_match (Lexer.mres L) stream p = Some (v, ty) ->
           str_in ty (Lexer.newline_types L) = false ->
           Str.count Str.newline v = 0) ->
        UnexpectedInput.line err = line_of pos stream
        /\ UnexpectedInput.column err = column_of pos stream).
Proof.
  intros H. apply Lexer_lex_from_sound in H as (k & lc & Hk & [Hnone Hlt] & ->).
  exists (LineCounter.char_pos lc).
  unfold error_at, UnexpectedInput.__init__.
  cbn [UnexpectedInput.char UnexpectedInput.context UnexpectedInput.allowed
       UnexpectedInput.line UnexpectedInput.column].
  rewrite !substring_length.
  split; [exact Hlt |]. split; [exact Hnone |]. split; [reflexivity |].
  split; [lia |]. split; [reflexivity |]. split; [lia |]. split; [reflexivity |].
  intros Hcomplete.
  apply (advance_n_exact laws L stream Hcomplete) in Hk; [| reflexivity].
  destruct (counter_of_text (Str.upto (LineCounter.char_pos lc) stream))
    as (Hp & Hl & Hc).
  rewrite <- Hk in Hp, Hl, Hc. unfold line_of, column_of.
  rewrite Hl, Hc, <- Hp. split; reflexivity.
Qed.

(** [ident_nl_lexer] on two lines with a digit on the second, through
    the theorem. *)
Lemma lexical_error_located_witness :
  exists pos,
    pos < String.length ("ab" ++ String Str.newline "c1")
    /\ mres_match (Lexer.mres ident_nl_lexer) ("ab" ++ String Str.newline "c1") pos = None
    /\ UnexpectedInput.char (UnexpectedInput.mk "1" 2 1 "1" None)
       = substring pos 1 ("ab" ++ String Str.newline "c1").
Proof.
  destruct (lexical_error_located PyRe_laws ident_nl_lexer
              ("ab" ++ String Str.newline "c1") 10
              [Token.mk "IDENT" "ab" 0 1 0;
               Token.mk "NEWLINE" (String Str.newline "") 2 1 2;
               Token.mk "IDENT" "c" 3 2 0]
              (UnexpectedInput.mk "1" 2 1 "1" None))
    as (pos & H1 & H2 & H3 & _); [vm_compute; reflexivity |].
  exists pos. auto.
Defined.

(** ** Equality of tokens *)

(** X20.  Among tokens, equality is an equivalence that looks at the
    type and the text only, so that a copy and a token that borrows the
    position of another are equal to any token of their type and text;
    through plain strings it is not transitive: two tokens of the same
    text and of different types are both equal to that text, and not to
    each other. *)
Theorem Token_eq_equivalence :
  (forall a, Token.__eq__ a (Token.OfToken a) = true)
  /\ (forall a b, Token.__eq__ a (Token.OfToken b) = Token.__eq__ b (Token.OfToken a))
  /\ (forall a b c,
        Token.__eq__ a (Token.OfToken b) = true ->
        Token.__eq__ b (Token.OfToken c) = true ->
        Token.__eq__ a (Token.OfToken c) = true)
  /\ (forall a b,
        Token.type a = Token.type b -> Token.value a = Token.value b ->
        Token.__eq__ (Token.__deepcopy__ a) (Token.OfToken b) = true
        /\ forall borrow_t,
             Token.__eq__ (Token.new_borrow_pos (Token.type a) (Token.value a) borrow_t)
               (Token.OfToken b) = true)
  /\ (forall a b,
        Token.value a = Token.value b -> Token.type a <> Token.type b ->
        Token.__eq__ a (Token.OfStr (Token.value b)) = true
        /\ Token.__eq__ b (Token.OfStr (Token.value b)) = true
        /\ Token.__eq__ a (Token.OfToken b) = false).
Proof.
  unfold Token.__eq__, Token.__deepcopy__, Token.new_borrow_pos.
  cbn [Token.type Token.value].
  split; [intros a; now rewrite !String.eqb_refl |].
  split; [intros a b; now rewrite (String.eqb_sym (Token.type a)),
                                   (String.eqb_sym (Token.value a)) |].
  split.
  { intros a b c.
    destruct (String.eqb_spec (Token.type a) (Token.type b)); cbn; [| discriminate].
    destruct (String.eqb_spec (Token.type b) (Token.type c)); cbn; [| discriminate].
    destruct (String.eqb_spec (Token.type a) (Token.type c)); cbn; [| congruence].
    rewrite !String.eqb_eq. congruence. }
  split.
  { intros a b -> ->. rewrite !String.eqb_refl. auto. }
  intros a b Hv Ht. rewrite Hv, String.eqb_refl.
  apply String.eqb_neq in Ht. rewrite Ht. auto.
Qed.

(** Two tokens of the text [if], of the types [IF] and [IDENT], through
    the theorem. *)
Lemma Token_eq_equivalence_witness :
  Token.__eq__ (Token.mk "IF" "if" 0 1 0) (Token.OfStr "if") = true
  /\ Token.__eq__ (Token.mk "IDENT" "if" 5 2 1) (Token.OfStr "if") = true
  /\ Token.__eq__ (Token.mk "IF" "if" 0 1 0) (Token.OfToken (Token.mk "IDENT" "if" 5 2 1))
     = false.
Proof.
  refine (proj2 (proj2 (proj2 (proj2 Token_eq_equivalence)))
            (Token.mk "IF" "if" 0 1 0) (Token.mk "IDENT" "if" 5 2 1) _ _).
  - reflexivity.
  - discriminate.
Defined.
